(** * Critical-error dialog of the installer web UI

    A shallow embedding of [ui/webui/src/components/Error.jsx]: the two URL
    builders, the [CriticalError] component seen as an event-driven state
    machine, and [errorHandlerWithContext] over a store of mutable objects.

    Strings are sequences of bytes (the UTF-8 encoding of the JavaScript
    string), which is the form in which the URL serializer sees them. *)

From Stdlib Require Import String Ascii NArith Bool Lia.
From stdpp Require Import gmap strings list.

Local Open Scope string_scope.
Local Open Scope list_scope.

#[local] Arguments String.append !_ _ / : simpl nomatch.

(** ** Bytes and strings *)

Definition byte_in (lo hi : N) (c : ascii) : bool :=
  let n := N_of_ascii c in (lo <=? n)%N && (n <=? hi)%N.

Definition is_digit (c : ascii) : bool := byte_in 48 57 c.
Definition is_upper (c : ascii) : bool := byte_in 65 90 c.
Definition is_lower (c : ascii) : bool := byte_in 97 122 c.
Definition is_alnum (c : ascii) : bool := is_digit c || is_upper c || is_lower c.

Fixpoint contains (c : ascii) (s : string) : bool :=
  match s with
  | EmptyString => false
  | String d r => Ascii.eqb c d || contains c r
  end.

Fixpoint all_chars (p : ascii -> bool) (s : string) : bool :=
  match s with
  | EmptyString => true
  | String c r => p c && all_chars p r
  end.

(** [s.split(sep)]: the pieces between the separators, never an empty list. *)
Fixpoint split_on (sep : ascii) (s : string) : list string :=
  match s with
  | EmptyString => [EmptyString]
  | String c r =>
      if Ascii.eqb c sep then EmptyString :: split_on sep r
      else match split_on sep r with
           | [] => [String c EmptyString]
           | h :: t => String c h :: t
           end
  end.

(** The text before and after the first [sep], when [s] has one. *)
Fixpoint split_first (sep : ascii) (s : string) : option (string * string) :=
  match s with
  | EmptyString => None
  | String c r =>
      if Ascii.eqb c sep then Some (EmptyString, r)
      else match split_first sep r with
           | Some (a, b) => Some (String c a, b)
           | None => None
           end
  end.

(** The longest prefix whose bytes satisfy [p], and the rest. *)
Fixpoint span (p : ascii -> bool) (s : string) : string * string :=
  match s with
  | EmptyString => (EmptyString, EmptyString)
  | String c r =>
      if p c then let '(a, b) := span p r in (String c a, b)
      else (EmptyString, s)
  end.

Fixpoint strip_prefix (p s : string) : option string :=
  match p, s with
  | EmptyString, _ => Some s
  | String a p', String b s' => if Ascii.eqb a b then strip_prefix p' s' else None
  | String _ _, EmptyString => None
  end.

Definition head_is (c : ascii) (s : string) : bool :=
  match s with
  | String d _ => Ascii.eqb c d
  | EmptyString => false
  end.

(** ** application/x-www-form-urlencoded

    The serializer and parser behind [URLSearchParams]. *)

Definition hex_digit (n : N) : ascii :=
  if (n <? 10)%N then ascii_of_N (48 + n) else ascii_of_N (55 + n).

Definition hex_value (c : ascii) : option N :=
  let n := N_of_ascii c in
  if is_digit c then Some (n - 48)%N
  else if byte_in 65 70 c then Some (n - 55)%N
  else if byte_in 97 102 c then Some (n - 87)%N
  else None.

Definition percent_encode_byte (c : ascii) : string :=
  let n := N_of_ascii c in
  String "%" (String (hex_digit (n / 16)) (String (hex_digit (n mod 16)) EmptyString)).

(** Bytes the urlencoded serializer leaves as they are. *)
Definition urlencoded_safe (c : ascii) : bool :=
  is_alnum c || Ascii.eqb c "*" || Ascii.eqb c "-" || Ascii.eqb c "." || Ascii.eqb c "_".

(** Bytes the serializer can write. *)
Definition encoded_char (x : ascii) : bool :=
  urlencoded_safe x || Ascii.eqb x "+" || Ascii.eqb x "%".

Definition urlencoded_encode_byte (c : ascii) : string :=
  if Ascii.eqb c " " then "+"
  else if urlencoded_safe c then String c EmptyString
  else percent_encode_byte c.

Fixpoint urlencoded_encode (s : string) : string :=
  match s with
  | EmptyString => EmptyString
  | String c r => urlencoded_encode_byte c +:+ urlencoded_encode r
  end.

Definition urlencoded_pair (p : string * string) : string :=
  urlencoded_encode p.1 +:+ "=" +:+ urlencoded_encode p.2.

Fixpoint urlencoded_serialize (l : list (string * string)) : string :=
  match l with
  | [] => EmptyString
  | [p] => urlencoded_pair p
  | p :: r => urlencoded_pair p +:+ "&" +:+ urlencoded_serialize r
  end.

Fixpoint plus_to_space (s : string) : string :=
  match s with
  | EmptyString => EmptyString
  | String c r => String (if Ascii.eqb c "+" then " "%char else c) (plus_to_space r)
  end.

Fixpoint percent_decode (s : string) : string :=
  match s with
  | EmptyString => EmptyString
  | String c r =>
      if Ascii.eqb c "%" then
        match r with
        | String h (String l r') =>
            match hex_value h, hex_value l with
            | Some a, Some b => String (ascii_of_N (16 * a + b)) (percent_decode r')
            | _, _ => String c (percent_decode r)
            end
        | _ => String c (percent_decode r)
        end
      else String c (percent_decode r)
  end.

(** The bytes of a name or value: [+] is a space and [%XX] the byte XX.
    The platform goes on to read these bytes as UTF-8, putting U+FFFD for
    every ill-formed sequence; a string here is its UTF-8 bytes, so the two
    agree on escapes that spell well-formed UTF-8, which is what the
    serializer writes for a JavaScript string. *)
Definition urlencoded_decode (s : string) : string :=
  percent_decode (plus_to_space s).

Definition urlencoded_parse_pair (seq : string) : string * string :=
  match split_first "=" seq with
  | Some (n, v) => (urlencoded_decode n, urlencoded_decode v)
  | None => (urlencoded_decode seq, EmptyString)
  end.

Definition is_empty (s : string) : bool :=
  match s with EmptyString => true | _ => false end.

Definition urlencoded_parse (s : string) : list (string * string) :=
  map urlencoded_parse_pair
      (List.filter (fun seq => negb (is_empty seq)) (split_on "&" s)).

(** [searchParams.getAll(name)] *)
Definition getAll (n : string) (l : list (string * string)) : list string :=
  map snd (List.filter (fun p : string * string => String.eqb p.1 n) l).

(** ** The URL object

    [new URL(s)], its [pathname] setter, [searchParams.append] and [href],
    for the URLs this component handles: [http(s)://host/path?query#fragment]
    with a lowercase dotted host name and components made of bytes that the
    URL parser stores as they are.  [URL_new] answers [None] both where the
    constructor throws a [TypeError] and for inputs outside this fragment.
    Percent escapes in a query are taken to spell well-formed UTF-8, so that
    decoding them loses nothing. *)

Record URL := mkURL {
  scheme : string;
  host : string;
  pathname : string;
  query : option string;
  fragment : option string;
  searchParams : list (string * string)
}.

Definition printable (c : ascii) : bool := byte_in 33 126 c.

Definition dquote : ascii := ascii_of_N 34.

Definition host_char (c : ascii) : bool :=
  is_lower c || is_digit c || Ascii.eqb c ".".

Definition label_ok (l : string) : bool :=
  negb (is_empty l) && all_chars (fun c => is_lower c || is_digit c) l.

Definition last_label_ok (l : string) : bool :=
  match l with
  | EmptyString => false
  | String c _ => is_lower c
  end.

Definition host_ok (h : string) : bool :=
  let labels := split_on "." h in
  all_chars host_char h
  && forallb label_ok labels && last_label_ok (List.last labels EmptyString).

Definition path_char (c : ascii) : bool :=
  is_alnum c || Ascii.eqb c "-" || Ascii.eqb c "." || Ascii.eqb c "_"
  || Ascii.eqb c "~" || Ascii.eqb c "/".

Definition dot_segment (seg : string) : bool :=
  String.eqb seg "." || String.eqb seg "..".

Definition path_ok (p : string) : bool :=
  all_chars path_char p && forallb (fun seg => negb (dot_segment seg)) (split_on "/" p).

Definition query_char (c : ascii) : bool :=
  printable c && negb (Ascii.eqb c dquote) && negb (Ascii.eqb c "#")
  && negb (Ascii.eqb c "<") && negb (Ascii.eqb c ">") && negb (Ascii.eqb c "'").

Definition fragment_char (c : ascii) : bool :=
  printable c && negb (Ascii.eqb c dquote) && negb (Ascii.eqb c "<")
  && negb (Ascii.eqb c ">") && negb (Ascii.eqb c "`").

Definition parse_scheme (s : string) : option (string * string) :=
  match strip_prefix "https://" s with
  | Some r => Some ("https", r)
  | None =>
      match strip_prefix "http://" s with
      | Some r => Some ("http", r)
      | None => None
      end
  end.

(** What follows the path: an optional ["?query"], then an optional
    ["#fragment"]. *)
Definition parse_tail (s : string) : option (option string * option string) :=
  let parse_fragment (s : string) : option (option string) :=
    match s with
    | EmptyString => Some None
    | String c f =>
        if Ascii.eqb c "#" && all_chars fragment_char f then Some (Some f) else None
    end in
  match s with
  | String "?" r =>
      let '(q, r') := span (fun c => negb (Ascii.eqb c "#")) r in
      if all_chars query_char q then
        match parse_fragment r' with
        | Some f => Some (Some q, f)
        | None => None
        end
      else None
  | _ =>
      match parse_fragment s with
      | Some f => Some (None, f)
      | None => None
      end
  end.

Definition not_delim (c : ascii) : bool :=
  negb (Ascii.eqb c "/") && negb (Ascii.eqb c "?") && negb (Ascii.eqb c "#").

Definition not_tail (c : ascii) : bool :=
  negb (Ascii.eqb c "?") && negb (Ascii.eqb c "#").

Definition URL_new (s : string) : option URL :=
  match parse_scheme s with
  | None => None
  | Some (sch, r) =>
      let '(h, r1) := span not_delim r in
      let '(p, r2) := span not_tail r1 in
      if host_ok h && path_ok p then
        match parse_tail r2 with
        | Some (q, f) =>
            Some {| scheme := sch; host := h;
                    pathname := if is_empty p then "/" else p;
                    query := q; fragment := f;
                    searchParams := urlencoded_parse (default EmptyString q) |}
        | None => None
        end
      else None
  end.

Definition opt_part (mark : string) (o : option string) : string :=
  match o with
  | Some x => mark +:+ x
  | None => EmptyString
  end.

Definition href (u : URL) : string :=
  scheme u +:+ "://" +:+ host u +:+ pathname u
  +:+ opt_part "?" (query u) +:+ opt_part "#" (fragment u).

(** [u.pathname = p] for a path of ordinary segments; any other value is
    outside the fragment and leaves the URL as it is. *)
Definition set_pathname (p : string) (u : URL) : URL :=
  if path_ok p then
    {| scheme := scheme u; host := host u;
       pathname := match p with
                   | String "/" _ => p
                   | _ => String "/" p
                   end;
       query := query u; fragment := fragment u;
       searchParams := searchParams u |}
  else u.

(** [u.searchParams.append(name, value)]: the pair goes to the end of the list
    and the URL's query becomes the serialization of the list. *)
Definition searchParams_append (name value : string) (u : URL) : URL :=
  let l := searchParams u ++ [(name, value)] in
  {| scheme := scheme u; host := host u; pathname := pathname u;
     query := Some (urlencoded_serialize l); fragment := fragment u;
     searchParams := l |}.

(** The URLs [URL_new] produces and the operations keep. *)
Record URL_wf (u : URL) : Prop := {
  wf_scheme : scheme u = "https" \/ scheme u = "http";
  wf_host : host_ok (host u) = true;
  wf_path : path_ok (pathname u) = true;
  wf_path_abs : head_is "/" (pathname u) = true;
  wf_query : all_chars query_char (default EmptyString (query u)) = true;
  wf_fragment : all_chars fragment_char (default EmptyString (fragment u)) = true;
  wf_params : searchParams u = urlencoded_parse (default EmptyString (query u))
}.

(** ** Plain objects used as mappings

    An object with string-valued properties, kept in the order its
    properties were created.  Enumeration ([Object.keys], spread) visits the
    array-index keys first, in ascending numeric order, and then the other
    keys in creation order. *)

Definition jsobj := list (string * string).

Definition obj_keys (o : jsobj) : list string := map fst o.

Fixpoint obj_get (k : string) (o : jsobj) : option string :=
  match o with
  | [] => None
  | (k', v) :: r => if String.eqb k k' then Some v else obj_get k r
  end.

Definition obj_has (k : string) (o : jsobj) : bool :=
  match obj_get k o with Some _ => true | None => false end.

Fixpoint obj_update (k v : string) (o : jsobj) : jsobj :=
  match o with
  | [] => []
  | (k', v') :: r =>
      if String.eqb k k' then (k', v) :: r else (k', v') :: obj_update k v r
  end.

(** [o[k] = v]: an existing property keeps its place, a new one is created
    last. *)
Definition obj_set (k v : string) (o : jsobj) : jsobj :=
  if obj_has k o then obj_update k v o else o ++ [(k, v)].

Fixpoint decimal_value (acc : N) (s : string) : N :=
  match s with
  | EmptyString => acc
  | String c r => decimal_value (10 * acc + (N_of_ascii c - 48)) r
  end.

(** An array index is the canonical decimal form of an integer below
    2^32 - 1. *)
Definition is_array_index (k : string) : bool :=
  match k with
  | EmptyString => false
  | String "0" EmptyString => true
  | String c _ =>
      negb (Ascii.eqb c "0") && all_chars is_digit k
      && (String.length k <=? 10)%nat && (decimal_value 0 k <? 4294967295)%N
  end.

Definition index_le (a b : string) : bool :=
  (decimal_value 0 a <=? decimal_value 0 b)%N.

Fixpoint insert_index (k : string) (l : list string) : list string :=
  match l with
  | [] => [k]
  | k' :: r => if index_le k k' then k :: l else k' :: insert_index k r
  end.

Fixpoint sort_index (l : list string) : list string :=
  match l with
  | [] => []
  | k :: r => insert_index k (sort_index r)
  end.

(** Sortedness for the order [sort_index] produces. *)
Fixpoint index_sorted (l : list string) : bool :=
  match l with
  | [] => true
  | k :: r =>
      match r with
      | [] => true
      | k' :: _ => index_le k k' && index_sorted r
      end
  end.

(** [Object.keys(o)] *)
Definition own_keys (o : jsobj) : list string :=
  sort_index (List.filter is_array_index (obj_keys o))
  ++ List.filter (fun k => negb (is_array_index k)) (obj_keys o).

(** A property read converted to a string, as [append] does with its
    argument. *)
Definition obj_get_string (k : string) (o : jsobj) : string :=
  default "undefined" (obj_get k o).

(** [{ ...src, rest }] starting from the properties [init]: every own
    property of [src] is copied in enumeration order. *)
Definition spread_into (init src : jsobj) : jsobj :=
  fold_left (fun acc k => obj_set k (obj_get_string k src) acc) (own_keys src) init.

(** ** The report URL builders *)

Definition baseURL : string := "https://bugzilla.redhat.com".

Definition bugzillaPrefiledReportURL (productQueryData : jsobj) : option string :=
  let queryData := obj_set "component" "anaconda" (spread_into [] productQueryData) in
  match URL_new baseURL with
  | None => None
  | Some reportURL =>
      let reportURL := set_pathname "enter_bug.cgi" reportURL in
      let reportURL :=
        fold_left (fun u q => searchParams_append q (obj_get_string q queryData) u)
                  (own_keys queryData) reportURL in
      Some (href reportURL)
  end.

(** The object the function enumerates: [{ ...productQueryData, component }]. *)
Definition queryData_of (productQueryData : jsobj) : jsobj :=
  obj_set "component" "anaconda" (spread_into [] productQueryData).

(** The URL of the bug form with the given parameters. *)
Definition enter_bug (params : list (string * string)) : URL :=
  {| scheme := "https"; host := "bugzilla.redhat.com"; pathname := "/enter_bug.cgi";
     query := Some (urlencoded_serialize params); fragment := None;
     searchParams := params |}.

(** What the specification says of the parameters: each key of the mapping
    is a parameter carrying the value the mapping gives it. *)
Definition keys_appear_with_mapped_values (productQueryData : jsobj) (u : URL) : Prop :=
  forall k v, obj_get k productQueryData = Some v -> In (k, v) (searchParams u).

(** The interface of the [cockpit] module the component relies on for
    texts: the translation lookup and the [$0] substitution. *)
Class Cockpit := {
  gettext : string -> string;
  format : string -> string -> string
}.

(** Texts left untranslated, [$0] put at the end. *)
Definition untranslated : Cockpit :=
  {| gettext := fun s => s; format := fun s a => s +:+ a |}.

(** [{ name, message, contextData?: { context? } }] *)
Record ContextData := { context : option string }.

Record Exception := {
  name : string;
  message : string;
  contextData : option ContextData
}.

(** [exception.contextData?.context] *)
Definition exception_context (e : Exception) : option string :=
  match contextData e with
  | Some cd => context cd
  | None => None
  end.

(** Truthiness of a string that may be undefined. *)
Definition truthy (o : option string) : bool :=
  match o with
  | Some s => negb (is_empty s)
  | None => false
  end.

Definition nl : string := String (ascii_of_N 10) EmptyString.

Definition context_prefix (e : Exception) : string :=
  if truthy (exception_context e)
  then default EmptyString (exception_context e) +:+ " "
  else EmptyString.

Definition short_desc (e : Exception) : string :=
  "WebUI: " +:+ context_prefix e +:+ name e +:+ ": " +:+ message e.

(** The short description as the specification words it: the context, when
    the exception carries one, then a space. *)
Definition short_desc_claimed (e : Exception) : string :=
  match exception_context e with
  | None => "WebUI: " +:+ name e +:+ ": " +:+ message e
  | Some C => "WebUI: " +:+ C +:+ " " +:+ name e +:+ ": " +:+ message e
  end.

Section Report.
Context {cockpit : Cockpit}.

Definition comment (e : Exception) : string :=
  "Installer WebUI Critical Error:" +:+ nl +:+ context_prefix e +:+ name e +:+ ": "
  +:+ message e +:+ nl +:+ nl
  +:+ gettext "Please attach the file /tmp/webui.log to the issue.".

(** The URL object the function builds, before it is turned into a string. *)
Definition exceptionReportURL (url : string) (e : Exception) : option URL :=
  match URL_new url with
  | None => None
  | Some newUrl =>
      let newUrl := searchParams_append "short_desc" (short_desc e) newUrl in
      let newUrl := searchParams_append "comment" (comment e) newUrl in
      Some newUrl
  end.

Definition addExceptionDataToReportURL (url : string) (e : Exception) : option string :=
  href <$> exceptionReportURL url e.

End Report.

(** ** Promises and the host

    A promise of the [cockpit] API carries the callbacks registered on it.
    [p.then(cb)] registers [cb] for fulfilment only; [p.always(cb)] is the
    jQuery-style method: it registers [cb] for both outcomes and returns [p]
    itself, so a [then] chained after it is again a fulfilment callback of
    [p].  The callbacks are the closures the component creates. *)

Inductive callback :=
  | SetLogContentCb                   (* content => setLogContent(content) *)
  | ClearPreparingReportCb            (* () => setPreparingReport(false) *)
  | WindowOpenCb (reportURL : string) (* () => window.open(reportURL, ...) *).

Inductive trigger := OnFulfilled | OnSettled.

Inductive operation :=
  | Spawn (argv : list string)
  | FileReplace (path : string) (content : option string).

Record Promise := {
  op : operation;
  handlers : list (trigger * callback)
}.

Definition cockpit_spawn (argv : list string) : Promise :=
  {| op := Spawn argv; handlers := [] |}.

Definition cockpit_file_replace (path : string) (content : option string) : Promise :=
  {| op := FileReplace path content; handlers := [] |}.

Definition then_ (cb : callback) (p : Promise) : Promise :=
  {| op := op p; handlers := handlers p ++ [(OnFulfilled, cb)] |}.

Definition always (cb : callback) (p : Promise) : Promise :=
  {| op := op p; handlers := handlers p ++ [(OnSettled, cb)] |}.

Inductive outcome :=
  | Fulfilled (value : string)
  | Rejected (problem : string).

Definition fires (t : trigger) (r : outcome) : bool :=
  match t, r with
  | OnSettled, _ => true
  | OnFulfilled, Fulfilled _ => true
  | OnFulfilled, Rejected _ => false
  end.

Definition is_write (p : Promise) : bool :=
  match op p with
  | FileReplace _ _ => true
  | Spawn _ => false
  end.

(** ** The component *)

Record Props := {
  exception : Exception;
  isBootIso : bool;
  reportLinkURL : option string
}.

(** The two [useState] cells. *)
Record State := {
  logContent : option string;
  preparingReport : bool
}.

(** A call of [window.open]. *)
Record WindowOpen := {
  open_url : string;
  open_target : string;
  open_features : string
}.

(** The dialog together with the part of the host it acts on: the promises
    not yet settled, the files, the browsing contexts opened so far and the
    number of calls of [exitGui]. *)
Record World := {
  state : State;
  pending : list Promise;
  files : gmap string string;
  windows : list WindowOpen;
  exits : nat
}.

Definition with_state (f : State -> State) (w : World) : World :=
  {| state := f (state w); pending := pending w; files := files w;
     windows := windows w; exits := exits w |}.

Definition setLogContent (v : option string) (w : World) : World :=
  with_state (fun s => {| logContent := v; preparingReport := preparingReport s |}) w.

Definition setPreparingReport (b : bool) (w : World) : World :=
  with_state (fun s => {| logContent := logContent s; preparingReport := b |}) w.

Definition start (p : Promise) (w : World) : World :=
  {| state := state w; pending := pending w ++ [p]; files := files w;
     windows := windows w; exits := exits w |}.

Definition window_open (url target features : string) (w : World) : World :=
  {| state := state w; pending := pending w; files := files w;
     windows := windows w ++ [{| open_url := url; open_target := target;
                                 open_features := features |}];
     exits := exits w |}.

Definition exitGui (w : World) : World :=
  {| state := state w; pending := pending w; files := files w;
     windows := windows w; exits := S (exits w) |}.

(** The [useEffect] with no dependencies: run once, when the dialog mounts. *)
Definition mount_effect (w : World) : World :=
  start (then_ SetLogContentCb (cockpit_spawn ["journalctl"; "-a"])) w.

Definition log_path : string := "/tmp/webui.log".

Definition openBZIssue (reportURL : string) (w : World) : World :=
  let logContent := logContent (state w) in
  let w := setPreparingReport true w in
  start (then_ (WindowOpenCb reportURL)
           (always ClearPreparingReportCb
              (cockpit_file_replace log_path logContent))) w.

(** The two promises the component creates, with their callbacks. *)
Definition log_fetch : Promise :=
  then_ SetLogContentCb (cockpit_spawn ["journalctl"; "-a"]).

Definition log_write (reportURL content : string) : Promise :=
  then_ (WindowOpenCb reportURL)
    (always ClearPreparingReportCb (cockpit_file_replace log_path (Some content))).

(** The write [openBZIssue] starts, whatever the log content is then. *)
Definition report_write (reportURL : string) (content : option string) : Promise :=
  then_ (WindowOpenCb reportURL)
    (always ClearPreparingReportCb (cockpit_file_replace log_path content)).

Definition report_window (url : string) : WindowOpen :=
  {| open_url := url; open_target := "_blank"; open_features := "noopener,noreferer" |}.

(** A write is in flight: a [replace] has been started and has not settled. *)
Definition write_in_flight (w : World) : bool := existsb is_write (pending w).

Definition run_callback (cb : callback) (r : outcome) (w : World) : World :=
  match cb with
  | SetLogContentCb =>
      match r with
      | Fulfilled content => setLogContent (Some content) w
      | Rejected _ => w
      end
  | ClearPreparingReportCb => setPreparingReport false w
  | WindowOpenCb reportURL => window_open reportURL "_blank" "noopener,noreferer" w
  end.

Record ButtonView := {
  isLoading : bool;
  isDisabled : bool;
  label : string
}.

Record TextAreaView := {
  value : option string;
  textDisabled : bool
}.

Record View := {
  description : string;
  reportButton : option (ButtonView * string);   (* the button and the URL its onClick passes on *)
  exitLabel : string;
  errorDetails : string;
  logArea : TextAreaView
}.

Section Dialog.
Context {cockpit : Cockpit}.

(** The render function; [None] when it throws (the report URL cannot be
    built). *)
Definition CriticalError (props : Props) (s : State) : option View :=
  match addExceptionDataToReportURL (default "undefined" (reportLinkURL props))
          (exception props) with
  | None => None
  | Some reportURL =>
      let context := exception_context (exception props) in
      let disabled :=
        match logContent s with None => true | Some _ => false end
        || preparingReport s in
      Some {|
        description :=
          if truthy context
          then format (gettext "The installer cannot continue due to a critical error: $0")
                      (gettext (default EmptyString context))
          else gettext "The installer cannot continue due to a critical error.";
        reportButton :=
          if truthy (reportLinkURL props)
          then Some ({| isLoading := preparingReport s;
                        isDisabled := disabled;
                        label := if preparingReport s then gettext "Preparing report"
                                 else gettext "Report issue" |},
                     reportURL)
          else None;
        exitLabel := if isBootIso props then gettext "Reboot" else gettext "Quit";
        errorDetails := name (exception props) +:+ ": " +:+ message (exception props);
        logArea := {| value := logContent s; textDisabled := disabled |}
      |}
  end.

(** What happens to the dialog after it is mounted. *)
Inductive event :=
  | Edit (text : string)            (* the user changes the text area *)
  | ClickReport                     (* the user activates the report control *)
  | ClickExit                       (* the user activates Reboot/Quit *)
  | Settle (i : nat) (r : outcome)  (* the i-th pending promise settles *).

(** A settled [replace] that succeeded has put the content in the file
    ([replace(null)] removes it). *)
Definition perform (o : operation) (r : outcome) (w : World) : World :=
  match o, r with
  | FileReplace path content, Fulfilled _ =>
      {| state := state w; pending := pending w;
         files := match content with
                  | Some c => <[path := c]> (files w)
                  | None => delete path (files w)
                  end;
         windows := windows w; exits := exits w |}
  | _, _ => w
  end.

Definition settle (p : Promise) (r : outcome) (w : World) : World :=
  fold_left (fun w h => if fires h.1 r then run_callback h.2 r w else w)
            (handlers p) (perform (op p) r w).

Definition remove_pending (i : nat) (w : World) : World :=
  {| state := state w; pending := take i (pending w) ++ drop (S i) (pending w);
     files := files w; windows := windows w; exits := exits w |}.

(** The events of a mounted dialog.  A report click runs the [onClick]
    handler whatever the control's [isDisabled]: the control is rendered as
    an [a] element, which has no disabled state of its own, and the handler
    does not test the state.  The text area is a native control: it reports
    no change while it is disabled. *)
Definition step (props : Props) (w : World) (e : event) : World :=
  match CriticalError props (state w) with
  | None => w
  | Some view =>
      match e with
      | Edit text =>
          if textDisabled (logArea view) then w else setLogContent (Some text) w
      | ClickReport =>
          match reportButton view with
          | Some (_, reportURL) => openBZIssue reportURL w
          | None => w
          end
      | ClickExit => exitGui w
      | Settle i r =>
          match pending w !! i with
          | Some p => settle p r (remove_pending i w)
          | None => w
          end
      end
  end.

(** The first render, on a host with the files [fs]; the effect runs once
    the render has succeeded. *)
Definition mount (props : Props) (fs : gmap string string) : World :=
  let w := {| state := {| logContent := None; preparingReport := false |};
              pending := []; files := fs; windows := []; exits := 0 |} in
  match CriticalError props (state w) with
  | Some _ => mount_effect w
  | None => w
  end.

Definition run (props : Props) (w : World) (evs : list event) : World :=
  fold_left (step props) evs w.

Definition reachable (props : Props) (w : World) : Prop :=
  exists fs evs, w = run props (mount props fs) evs.

(** The report control is rendered and enabled. *)
Definition report_enabled (props : Props) (w : World) : bool :=
  match CriticalError props (state w) with
  | Some view =>
      match reportButton view with
      | Some (b, _) => negb (isDisabled b)
      | None => false
      end
  | None => false
  end.

(** A run in which the report control is activated only while it is
    enabled. *)
Fixpoint orderly (props : Props) (w : World) (evs : list event) : bool :=
  match evs with
  | [] => true
  | e :: rest =>
      match e with
      | ClickReport => report_enabled props w
      | _ => true
      end
      && orderly props (step props w e) rest
  end.

Section Invariant.
Context (props : Props).

(** The report URL of a render. *)
Definition reportURL_of : option string :=
  addExceptionDataToReportURL (default "undefined" (reportLinkURL props)) (exception props).

(** What holds of the dialog in every reachable world. *)
Record invariant (w : World) : Prop := {
  inv_pending :
    Forall (fun p => p = log_fetch
                     \/ exists url content,
                          reportURL_of = Some url /\ p = report_write url content)
           (pending w);
  inv_preparing : preparingReport (state w) = true -> write_in_flight w = true;
  inv_content :
    forall url c, In (log_write url c) (pending w) -> logContent (state w) <> None;
  inv_windows :
    Forall (fun o => reportURL_of = Some (open_url o)
                     /\ o = report_window (open_url o)) (windows w);
  inv_render : logContent (state w) <> None -> is_Some reportURL_of
}.

End Invariant.

End Dialog.

(** ** The features argument of [window.open]

    The argument is a comma-separated list of [name] or [name=value] items.
    A new browsing context gets no opener when [noopener] or [noreferrer] is
    among the names, and sends no referrer when [noreferrer] is. *)

Definition feature_name (item : string) : string :=
  match split_first "=" item with
  | Some (n, _) => n
  | None => item
  end.

Definition feature_names (features : string) : list string :=
  map feature_name (split_on "," features).

Definition has_feature (f features : string) : bool :=
  existsb (String.eqb f) (feature_names features).

Definition suppresses_opener (features : string) : bool :=
  has_feature "noopener" features || has_feature "noreferrer" features.

Definition suppresses_referrer (features : string) : bool :=
  has_feature "noreferrer" features.

(** ** Objects passed by reference

    [errorHandlerWithContext] assigns to a property of the object it is
    given, so exceptions live in a store and are named by their address.
    A computation threads the store and the record of the calls made to the
    handler, and ends normally or by throwing. *)

Module Store.

Definition loc := positive.

Inductive jsval :=
  | VUndefined
  | VNull
  | VString (s : string)
  | VObject (l : loc).

Abbreviation object := (gmap string jsval).
Abbreviation heap := (gmap loc (gmap string jsval)).

Record machine := {
  objects : heap;
  calls : list jsval   (* arguments of the handler's invocations, oldest first *)
}.

Inductive completion (A : Type) :=
  | Normal (a : A)
  | Throw (error : string).
Arguments Normal {A} a.
Arguments Throw {A} error.

Definition M (A : Type) : Type := machine -> machine * completion A.

Definition ret {A} (a : A) : M A := fun m => (m, Normal a).

Definition bind {A B} (c : M A) (k : A -> M B) : M B :=
  fun m =>
    match c m with
    | (m', Normal a) => k a m'
    | (m', Throw e) => (m', Throw e)
    end.

Declare Scope store_scope.
Delimit Scope store_scope with store.
Notation "c1 ;; c2" := (bind c1 (fun _ => c2))
  (at level 100, c2 at level 200, right associativity) : store_scope.

(** [target[k] = v] in strict mode. *)
Definition set_property (target : jsval) (k : string) (v : jsval) : M unit :=
  fun m =>
    match target with
    | VObject l =>
        match objects m !! l with
        | Some o =>
            ({| objects := <[l := <[k := v]> o]> (objects m); calls := calls m |},
             Normal tt)
        | None => (m, Throw "ReferenceError")
        end
    | _ => (m, Throw "TypeError")
    end.

(** A JavaScript function of one argument, by what it does to the store. *)
Definition function := jsval -> heap -> heap * completion unit.

(** [handler(arg)] *)
Definition invoke (handler : function) (arg : jsval) : M unit :=
  fun m =>
    let '(h, r) := handler arg (objects m) in
    ({| objects := h; calls := calls m ++ [arg] |}, r).

Definition errorHandlerWithContext (contextData : jsval) (handler : function)
  : jsval -> M unit :=
  fun exception =>
    (set_property exception "contextData" contextData ;;
     invoke handler exception)%store.

End Store.

(** ** The life of the dialog

    The situations a mounted dialog is in, by what is pending, as long as
    the report control is activated only while it is enabled: the journal is
    being fetched; nothing is pending; the log is being written. *)

Section Lifecycle.
Context {cockpit : Cockpit} (props : Props).

Definition loading (w : World) : Prop :=
  is_Some (reportURL_of props)
  /\ pending w = [log_fetch]
  /\ state w = {| logContent := None; preparingReport := false |}.

Definition idle (w : World) : Prop :=
  pending w = [] /\ preparingReport (state w) = false.

Definition preparing (w : World) : Prop :=
  exists url c,
    reportURL_of props = Some url
    /\ pending w = [log_write url c]
    /\ state w = {| logContent := Some c; preparingReport := true |}.

Definition lifecycle (w : World) : Prop := loading w \/ idle w \/ preparing w.

(** What a run that started on the files [fs] has done to the host. *)
Record effects (fs : gmap string string) (w : World) : Prop := {
  eff_render : logContent (state w) <> None -> is_Some (reportURL_of props);
  eff_windows :
    Forall (fun o => reportURL_of props = Some (open_url o)
                     /\ o = report_window (open_url o)) (windows w);
  eff_saved : windows w <> [] -> is_Some (files w !! log_path);
  eff_files : files w = fs \/ exists c, files w = <[log_path := c]> fs;
  eff_fresh : loading w -> windows w = [] /\ files w = fs
}.

(** The journal could not be fetched: nothing is shown and nothing pends. *)
Definition stalled (fs : gmap string string) (w : World) : Prop :=
  state w = {| logContent := None; preparingReport := false |}
  /\ pending w = [] /\ windows w = [] /\ files w = fs.

End Lifecycle.

(** ** Exceptions in the store

    The exception the report builder reads from the object at [l]: [name]
    and [message] when both are strings, and [contextData?.context] when it
    is a string or absent.  Other shapes, which the builder would coerce to
    strings, have no reading. *)

Definition read_string (o : gmap string Store.jsval) (k : string) : option string :=
  match o !! k with
  | Some (Store.VString s) => Some s
  | _ => None
  end.

Definition read_context (h : gmap Store.loc (gmap string Store.jsval))
    (v : option Store.jsval) : option (option ContextData) :=
  match v with
  | None | Some Store.VUndefined | Some Store.VNull | Some (Store.VString _) => Some None
  | Some (Store.VObject lc) =>
      match h !! lc with
      | None => None
      | Some co =>
          match co !! "context" with
          | None | Some Store.VUndefined => Some (Some {| context := None |})
          | Some (Store.VString c) => Some (Some {| context := Some c |})
          | Some _ => None
          end
      end
  end.

Definition exception_at (h : gmap Store.loc (gmap string Store.jsval)) (l : Store.loc)
  : option Exception :=
  match h !! l with
  | None => None
  | Some o =>
      match read_string o "name", read_string o "message",
            read_context h (o !! "contextData") with
      | Some n, Some msg, Some cd =>
          Some {| name := n; message := msg; contextData := cd |}
      | _, _, _ => None
      end
  end.

(** ** Sample inputs *)

Definition empty_context_error : Exception :=
  {| name := "TypeError"; message := "x is undefined";
     contextData := Some {| context := Some EmptyString |} |}.

Definition sample_props : Props :=
  {| exception := {| name := "TypeError"; message := "x is undefined";
                     contextData := None |};
     isBootIso := false;
     reportLinkURL :=
       Some "https://bugzilla.redhat.com/enter_bug.cgi?product=Fedora&component=anaconda" |}.

(** The journal has arrived and the user has activated the report control. *)
Definition write_pending_world : World :=
  run (cockpit := untranslated) sample_props
    (mount (cockpit := untranslated) sample_props ∅)
    [Settle 0 (Fulfilled "journal"); Edit "journal, reviewed"; ClickReport].

Definition sample_error : gmap string Store.jsval :=
  {[ "name" := Store.VString "TypeError";
     "message" := Store.VString "x is undefined";
     "contextData" := Store.VString "stale" ]}.

Definition sample_store : Store.machine :=
  {| Store.objects :=
       {[ 1%positive := sample_error;
          2%positive := {[ "context" := Store.VString "Storage" ]} ]};
     Store.calls := [] |}.


(** * Properties *)

(** ** Strings *)

Lemma app_assoc_s (a b c : string) : (a +:+ b) +:+ c = a +:+ b +:+ c.
Proof. induction a as [|x a IH]; simpl; [reflexivity | now rewrite IH]. Qed.

Lemma app_nil_r_s (a : string) : a +:+ EmptyString = a.
Proof. induction a as [|x a IH]; simpl; [reflexivity | now rewrite IH]. Qed.

Lemma contains_app c a b : contains c (a +:+ b) = contains c a || contains c b.
Proof.
  induction a as [|x a IH]; simpl; [reflexivity|].
  rewrite IH. now rewrite orb_assoc.
Qed.

Lemma all_chars_app p a b : all_chars p (a +:+ b) = all_chars p a && all_chars p b.
Proof.
  induction a as [|x a IH]; simpl; [reflexivity|].
  rewrite IH. now rewrite andb_assoc.
Qed.

Lemma all_chars_impl (p q : ascii -> bool) s :
  (forall c, p c = true -> q c = true) -> all_chars p s = true -> all_chars q s = true.
Proof.
  intros Hpq. induction s as [|x s IH]; simpl; [reflexivity|].
  intros [Hx Hs]%andb_true_iff. rewrite (Hpq _ Hx). now apply IH.
Qed.

Lemma all_chars_not_contains p c s :
  p c = false -> all_chars p s = true -> contains c s = false.
Proof.
  intros Hc. induction s as [|x s IH]; simpl; [reflexivity|].
  intros [Hx Hs]%andb_true_iff. rewrite (IH Hs), orb_false_r.
  destruct (Ascii.eqb_spec c x) as [->|]; [congruence | reflexivity].
Qed.

Lemma split_first_app sep a b :
  contains sep a = false -> split_first sep (a +:+ String sep b) = Some (a, b).
Proof.
  induction a as [|x a IH]; simpl.
  - intros _. now rewrite Ascii.eqb_refl.
  - intros [Hx Ha]%orb_false_iff. rewrite Ascii.eqb_sym, Hx.
    now rewrite (IH Ha).
Qed.

Lemma split_first_none sep a : contains sep a = false -> split_first sep a = None.
Proof.
  induction a as [|x a IH]; simpl; [reflexivity|].
  intros [Hx Ha]%orb_false_iff. rewrite Ascii.eqb_sym, Hx. now rewrite (IH Ha).
Qed.

Lemma split_on_app sep a b :
  contains sep a = false -> split_on sep (a +:+ String sep b) = a :: split_on sep b.
Proof.
  induction a as [|x a IH]; simpl.
  - intros _. now rewrite Ascii.eqb_refl.
  - intros [Hx Ha]%orb_false_iff. rewrite Ascii.eqb_sym, Hx.
    now rewrite (IH Ha).
Qed.

Lemma split_on_none sep a : contains sep a = false -> split_on sep a = [a].
Proof.
  induction a as [|x a IH]; simpl; [reflexivity|].
  intros [Hx Ha]%orb_false_iff. rewrite Ascii.eqb_sym, Hx. now rewrite (IH Ha).
Qed.

Lemma span_app p a b :
  all_chars p a = true ->
  match b with EmptyString => True | String c _ => p c = false end ->
  span p (a +:+ b) = (a, b).
Proof.
  intros Ha Hb. induction a as [|x a IH]; simpl in Ha |- *.
  - destruct b as [|c b]; simpl; [reflexivity | now rewrite Hb].
  - apply andb_true_iff in Ha as [Hx Ha]. rewrite Hx. now rewrite (IH Ha).
Qed.

(** ** The urlencoded round trip *)

Ltac each_byte c := destruct c as [[] [] [] [] [] [] [] []].

Lemma decode_encode_byte c r :
  urlencoded_decode (urlencoded_encode_byte c +:+ r) = String c (urlencoded_decode r).
Proof. each_byte c; reflexivity. Qed.

Lemma encode_byte_chars c :
  all_chars (fun x => urlencoded_safe x || Ascii.eqb x "+" || Ascii.eqb x "%")
            (urlencoded_encode_byte c) = true.
Proof. each_byte c; reflexivity. Qed.

Lemma encode_chars s : all_chars encoded_char (urlencoded_encode s) = true.
Proof.
  induction s as [|c s IH]; simpl; [reflexivity|].
  rewrite all_chars_app, IH, andb_true_r. apply encode_byte_chars.
Qed.

Lemma decode_encode_app s r :
  urlencoded_decode (urlencoded_encode s +:+ r) = s +:+ urlencoded_decode r.
Proof.
  induction s as [|c s IH]; simpl; [reflexivity|].
  now rewrite app_assoc_s, decode_encode_byte, IH.
Qed.

Lemma decode_encode s : urlencoded_decode (urlencoded_encode s) = s.
Proof.
  rewrite <- (app_nil_r_s (urlencoded_encode s)), decode_encode_app.
  apply app_nil_r_s.
Qed.

Lemma encode_no_sep c s :
  encoded_char c = false -> contains c (urlencoded_encode s) = false.
Proof. intros Hc. eapply all_chars_not_contains; [exact Hc | apply encode_chars]. Qed.

Lemma parse_pair_pair p : urlencoded_parse_pair (urlencoded_pair p) = p.
Proof.
  destruct p as [n v]. unfold urlencoded_parse_pair, urlencoded_pair. simpl.
  rewrite split_first_app by (now apply encode_no_sep).
  now rewrite !decode_encode.
Qed.

Lemma pair_no_amp p : contains "&" (urlencoded_pair p) = false.
Proof.
  unfold urlencoded_pair. rewrite contains_app. simpl.
  rewrite !encode_no_sep by reflexivity. reflexivity.
Qed.

Lemma pair_not_empty p : is_empty (urlencoded_pair p) = false.
Proof.
  unfold urlencoded_pair. destruct (urlencoded_encode p.1); reflexivity.
Qed.

Lemma serialize_cons p q r :
  urlencoded_serialize (p :: q :: r)
  = urlencoded_pair p +:+ String "&" (urlencoded_serialize (q :: r)).
Proof. reflexivity. Qed.

(** Parsing what the serializer wrote gives the list back. *)
Lemma urlencoded_parse_serialize l : urlencoded_parse (urlencoded_serialize l) = l.
Proof.
  unfold urlencoded_parse.
  induction l as [|p [|q r] IH].
  - reflexivity.
  - cbn [urlencoded_serialize]. rewrite split_on_none by apply pair_no_amp.
    cbn [List.filter]. rewrite pair_not_empty. cbn. now rewrite parse_pair_pair.
  - rewrite serialize_cons, split_on_app by apply pair_no_amp.
    cbn [List.filter]. rewrite pair_not_empty.
    cbn [negb map]. now rewrite parse_pair_pair, IH.
Qed.

Lemma serialize_query_chars l : all_chars query_char (urlencoded_serialize l) = true.
Proof.
  assert (Henc : forall s, all_chars query_char (urlencoded_encode s) = true).
  { intros s. apply (all_chars_impl encoded_char); [|apply encode_chars].
    intros c. each_byte c; intros Hc; try reflexivity; discriminate Hc. }
  assert (Hpair : forall p, all_chars query_char (urlencoded_pair p) = true).
  { intros p. unfold urlencoded_pair. rewrite !all_chars_app, !Henc. reflexivity. }
  induction l as [|p [|q r] IH]; [reflexivity | apply Hpair |].
  rewrite serialize_cons, all_chars_app, Hpair. simpl all_chars at 1.
  cbn [andb]. change (query_char "&") with true. exact IH.
Qed.

(** ** URLs *)

Lemma span_spec p s a b :
  span p s = (a, b) ->
  s = a +:+ b /\ all_chars p a = true
  /\ match b with EmptyString => True | String c _ => p c = false end.
Proof.
  revert a b. induction s as [|x s IH]; simpl; intros a b.
  - intros [= <- <-]. auto.
  - destruct (p x) eqn:Hx.
    + destruct (span p s) as [a' b'] eqn:Hs. intros [= <- <-].
      destruct (IH _ _ eq_refl) as (-> & Ha & Hb). simpl. rewrite Hx. auto.
    + intros [= <- <-]. simpl. auto.
Qed.

Lemma strip_prefix_app p s : strip_prefix p (p +:+ s) = Some s.
Proof.
  induction p as [|x p IH]; simpl; [now destruct s|].
  now rewrite Ascii.eqb_refl.
Qed.

Lemma parse_tail_wf s q f :
  parse_tail s = Some (q, f) ->
  all_chars query_char (default EmptyString q) = true
  /\ all_chars fragment_char (default EmptyString f) = true.
Proof.
  assert (Hfrag : forall t f,
    (match t with
     | EmptyString => Some None
     | String c f =>
         if Ascii.eqb c "#" && all_chars fragment_char f then Some (Some f) else None
     end) = Some f -> all_chars fragment_char (default EmptyString f) = true).
  { intros [|c t] f0; [now intros [= <-]|].
    destruct (Ascii.eqb c "#" && all_chars fragment_char t) eqn:E; [|discriminate].
    intros [= <-]. now apply andb_true_iff in E as [_ E]. }
  unfold parse_tail. destruct s as [|c r].
  - intros [= <- <-]. auto.
  - destruct (Ascii.eqb_spec c "?") as [->|Hc].
    + destruct (span (fun c => negb (Ascii.eqb c "#")) r) as [q0 r'] eqn:Hs.
      destruct (all_chars query_char q0) eqn:Hq; [|discriminate].
      match goal with |- context [match ?x with Some _ => _ | None => None end] =>
        destruct x as [f0|] eqn:Hf end; [|discriminate].
      intros [= <- <-]. split; [exact Hq | now apply (Hfrag r')].
    + match goal with |- ?lhs = _ -> _ =>
        assert (Hl : lhs =
          match (if Ascii.eqb c "#" && all_chars fragment_char r
                 then Some (Some r) else None) with
          | Some f => Some (None, f) | None => None end) end.
      { each_byte c; try reflexivity. now contradiction Hc. }
      rewrite Hl.
      destruct (Ascii.eqb c "#" && all_chars fragment_char r) eqn:E; [|discriminate].
      intros [= <- <-]. split; [reflexivity|].
      now apply andb_true_iff in E as [_ E].
Qed.

Lemma parse_scheme_spec s sch r :
  parse_scheme s = Some (sch, r) -> sch = "https" \/ sch = "http".
Proof.
  unfold parse_scheme.
  destruct (strip_prefix "https://" s); [intros [= <- <-]; auto|].
  destruct (strip_prefix "http://" s); [intros [= <- <-]; auto | discriminate].
Qed.

Lemma URL_new_wf s u : URL_new s = Some u -> URL_wf u.
Proof.
  unfold URL_new.
  destruct (parse_scheme s) as [[sch r]|] eqn:Hsch; [|discriminate].
  destruct (span not_delim r) as [h r1] eqn:Hh.
  destruct (span not_tail r1) as [p r2] eqn:Hp.
  destruct (host_ok h && path_ok p) eqn:Hok; [|discriminate].
  destruct (parse_tail r2) as [[q f]|] eqn:Ht; [|discriminate].
  intros [= <-]. apply andb_true_iff in Hok as [Hhost Hpath].
  destruct (parse_tail_wf _ _ _ Ht) as [Hq Hf].
  apply span_spec in Hh as (_ & _ & Hr1).
  apply span_spec in Hp as (-> & Hpc & _).
  constructor; cbn [scheme host pathname query fragment searchParams]; try assumption.
  - eapply parse_scheme_spec, Hsch.
  - destruct p; [reflexivity | exact Hpath].
  - destruct p as [|c p]; [reflexivity|].
    cbn [String.append all_chars is_empty head_is] in Hr1, Hpc |- *.
    apply andb_true_iff in Hpc as [Hc _]. revert Hr1 Hc.
    unfold not_delim, not_tail. rewrite (Ascii.eqb_sym "/" c).
    destruct (Ascii.eqb c "/"), (Ascii.eqb c "?"), (Ascii.eqb c "#"); simpl; congruence.
  - reflexivity.
Qed.

Lemma host_ok_chars h : host_ok h = true -> all_chars not_delim h = true.
Proof.
  unfold host_ok. intros [[Hc _]%andb_true_iff _]%andb_true_iff.
  revert Hc. apply all_chars_impl.
  intros c. each_byte c; intros Hc; try reflexivity; discriminate Hc.
Qed.

Lemma path_ok_chars p : path_ok p = true -> all_chars not_tail p = true.
Proof.
  unfold path_ok. intros [Hc _]%andb_true_iff.
  revert Hc. apply all_chars_impl.
  intros c. each_byte c; intros Hc; try reflexivity; discriminate Hc.
Qed.

Lemma query_chars_no_hash q :
  all_chars query_char q = true ->
  all_chars (fun c => negb (Ascii.eqb c "#")) q = true.
Proof.
  apply all_chars_impl.
  intros c. each_byte c; intros Hc; try reflexivity; discriminate Hc.
Qed.

Lemma parse_tail_parts q f :
  all_chars query_char (default EmptyString q) = true ->
  all_chars fragment_char (default EmptyString f) = true ->
  parse_tail (opt_part "?" q +:+ opt_part "#" f) = Some (q, f).
Proof.
  intros Hq Hf. destruct q as [q|]; simpl in Hq |- *.
  - rewrite (span_app _ q (opt_part "#" f)).
    + rewrite Hq. destruct f as [f|]; simpl in Hf |- *; [now rewrite Hf | reflexivity].
    + now apply query_chars_no_hash.
    + now destruct f.
  - destruct f as [f|]; simpl in Hf |- *; [now rewrite Hf | reflexivity].
Qed.

(** Parsing the serialization of a URL gives the URL back. *)
Lemma URL_new_href u : URL_wf u -> URL_new (href u) = Some u.
Proof.
  intros [Hs Hh Hp Habs Hq Hf Hparams]. destruct u as [sch h p q f l].
  cbn [scheme host pathname query fragment searchParams] in *.
  unfold URL_new, href. cbn [scheme host pathname query fragment searchParams].
  assert (Hsch : parse_scheme (sch +:+ "://" +:+ h +:+ p +:+ opt_part "?" q +:+ opt_part "#" f)
                 = Some (sch, h +:+ p +:+ opt_part "?" q +:+ opt_part "#" f)).
  { destruct Hs as [-> | ->]; reflexivity. }
  rewrite Hsch.
  rewrite (span_app not_delim h); [|now apply host_ok_chars|].
  2:{ destruct p as [|c p]; [discriminate|]. cbn [head_is String.append] in Habs |- *.
      apply Ascii.eqb_eq in Habs as <-. reflexivity. }
  rewrite (span_app not_tail p); [|now apply path_ok_chars|].
  2:{ destruct q as [q|]; [reflexivity|]. now destruct f. }
  rewrite Hh, Hp. cbn [andb]. rewrite parse_tail_parts by assumption.
  destruct p as [|c p]; [discriminate|]. cbn [is_empty]. now rewrite Hparams.
Qed.

Lemma searchParams_append_wf n v u : URL_wf u -> URL_wf (searchParams_append n v u).
Proof.
  intros [Hs Hh Hp Habs Hq Hf Hparams].
  constructor; simpl; try assumption.
  - apply serialize_query_chars.
  - now rewrite urlencoded_parse_serialize.
Qed.

Lemma searchParams_append_params n v u :
  searchParams (searchParams_append n v u) = searchParams u ++ [(n, v)].
Proof. reflexivity. Qed.

Lemma href_append n v u :
  href (searchParams_append n v u)
  = scheme u +:+ "://" +:+ host u +:+ pathname u +:+ "?"
    +:+ urlencoded_serialize (searchParams u ++ [(n, v)]) +:+ opt_part "#" (fragment u).
Proof. reflexivity. Qed.

Lemma fold_append_params (f : string -> string) ks k u :
  fold_left (fun u q => searchParams_append q (f q) u) (k :: ks) u
  = let l := searchParams u ++ map (fun q => (q, f q)) (k :: ks) in
    {| scheme := scheme u; host := host u; pathname := pathname u;
       query := Some (urlencoded_serialize l); fragment := fragment u;
       searchParams := l |}.
Proof.
  revert k u. induction ks as [|k' ks IH]; intros k u; [reflexivity|].
  change (fold_left ?g (k :: k' :: ks) u)
    with (fold_left g (k' :: ks) (searchParams_append k (f k) u)).
  rewrite IH. cbn [searchParams_append scheme host pathname query fragment searchParams].
  cbn zeta. now rewrite <- !app_assoc.
Qed.

(** ** Objects *)

Lemma obj_has_In k o : obj_has k o = true <-> In k (obj_keys o).
Proof.
  unfold obj_has. induction o as [|[k' v] o IH]; simpl; [intuition discriminate|].
  destruct (String.eqb_spec k k') as [->|Hne]; [intuition|].
  rewrite IH. intuition congruence.
Qed.

Lemma obj_update_keys k v o : obj_keys (obj_update k v o) = obj_keys o.
Proof.
  induction o as [|[k' v'] o IH]; simpl; [reflexivity|].
  destruct (String.eqb k k'); simpl; [reflexivity | now rewrite IH].
Qed.

Lemma obj_set_keys k v o :
  obj_keys (obj_set k v o) = if obj_has k o then obj_keys o else obj_keys o ++ [k].
Proof.
  unfold obj_set. destruct (obj_has k o); [apply obj_update_keys|].
  unfold obj_keys. now rewrite map_app.
Qed.

Lemma obj_set_NoDup k v o : NoDup (obj_keys o) -> NoDup (obj_keys (obj_set k v o)).
Proof.
  intros Hnd. rewrite obj_set_keys. destruct (obj_has k o) eqn:Hk; [exact Hnd|].
  apply NoDup_app. split; [exact Hnd|]. split; [|apply NoDup_singleton].
  intros x Hx [->|[]]%list_elem_of_In. apply list_elem_of_In, obj_has_In in Hx. congruence.
Qed.

Lemma obj_get_update_eq k v o : obj_has k o = true -> obj_get k (obj_update k v o) = Some v.
Proof.
  unfold obj_has. induction o as [|[k' v'] o IH]; simpl; [discriminate|].
  destruct (String.eqb k k') eqn:E; simpl; rewrite E; auto.
Qed.

Lemma obj_get_update_ne k k' v o : k <> k' -> obj_get k' (obj_update k v o) = obj_get k' o.
Proof.
  intros Hne. induction o as [|[k0 v0] o IH]; simpl; [reflexivity|].
  destruct (String.eqb_spec k k0) as [->|]; simpl.
  - destruct (String.eqb_spec k' k0); [congruence | reflexivity].
  - now rewrite IH.
Qed.

Lemma obj_get_app k o o' :
  obj_get k (o ++ o') = match obj_get k o with Some v => Some v | None => obj_get k o' end.
Proof.
  induction o as [|[k0 v0] o IH]; simpl; [reflexivity|].
  destruct (String.eqb k k0); [reflexivity | exact IH].
Qed.

Lemma obj_get_set_eq k v o : obj_get k (obj_set k v o) = Some v.
Proof.
  unfold obj_set. destruct (obj_has k o) eqn:Hk; [now apply obj_get_update_eq|].
  rewrite obj_get_app. unfold obj_has in Hk.
  destruct (obj_get k o); [discriminate|]. simpl. now rewrite String.eqb_refl.
Qed.

Lemma obj_get_set_ne k k' v o : k <> k' -> obj_get k' (obj_set k v o) = obj_get k' o.
Proof.
  intros Hne. unfold obj_set. destruct (obj_has k o); [now apply obj_get_update_ne|].
  rewrite obj_get_app. destruct (obj_get k' o); [reflexivity|]. simpl.
  destruct (String.eqb_spec k' k); [congruence | reflexivity].
Qed.

Lemma spread_into_NoDup init src :
  NoDup (obj_keys init) -> NoDup (obj_keys (spread_into init src)).
Proof.
  unfold spread_into. generalize (own_keys src). intros ks. revert init.
  induction ks as [|k ks IH]; intros init Hnd; simpl; [exact Hnd|].
  apply IH. now apply obj_set_NoDup.
Qed.

Lemma insert_index_perm k l : insert_index k l ≡ₚ k :: l.
Proof.
  induction l as [|x l IH]; simpl; [reflexivity|].
  destruct (index_le k x); [reflexivity|]. rewrite IH. apply perm_swap.
Qed.

Lemma sort_index_perm l : sort_index l ≡ₚ l.
Proof.
  induction l as [|x l IH]; simpl; [reflexivity|].
  now rewrite insert_index_perm, IH.
Qed.

Lemma filter_split_perm {A} (p : A -> bool) l :
  List.filter p l ++ List.filter (fun x => negb (p x)) l ≡ₚ l.
Proof.
  induction l as [|x l IH]; simpl; [reflexivity|].
  destruct (p x); simpl.
  - now rewrite IH.
  - now rewrite <- Permutation_middle, IH.
Qed.

Lemma own_keys_perm o : own_keys o ≡ₚ obj_keys o.
Proof.
  unfold own_keys. rewrite sort_index_perm. apply filter_split_perm.
Qed.

Lemma filter_key_none (g : string -> string) ks k :
  ~ In k ks ->
  List.filter (fun p : string * string => String.eqb p.1 k) (map (fun q => (q, g q)) ks) = [].
Proof.
  induction ks as [|x ks IH]; simpl; [reflexivity|]. intros Hk.
  destruct (String.eqb_spec x k) as [->|]; [tauto|]. apply IH. tauto.
Qed.

Lemma filter_key_unique (g : string -> string) ks k :
  NoDup ks -> In k ks ->
  List.filter (fun p : string * string => String.eqb p.1 k) (map (fun q => (q, g q)) ks)
  = [(k, g k)].
Proof.
  induction 1 as [|x ks Hx Hnd IH]; simpl; [tauto|].
  destruct (String.eqb_spec x k) as [->|Hne].
  - intros _. f_equal. apply filter_key_none. now rewrite <- list_elem_of_In.
  - intros [?|Hk]; [congruence | now apply IH].
Qed.

Lemma obj_get_map (f : string -> string) ks k :
  In k ks -> obj_get k (map (fun q => (q, f q)) ks) = Some (f k).
Proof.
  induction ks as [|x ks IH]; simpl; [tauto|].
  destruct (String.eqb_spec k x) as [->|Hne]; [reflexivity|].
  intros [?|Hk]; [congruence | now apply IH].
Qed.

Lemma obj_keys_map (f : string -> string) ks : obj_keys (map (fun q => (q, f q)) ks) = ks.
Proof. unfold obj_keys. rewrite map_map. simpl. apply map_id. Qed.

Lemma fold_set_fresh (f : string -> string) ks init :
  NoDup (obj_keys init ++ ks) ->
  fold_left (fun acc k => obj_set k (f k) acc) ks init
  = init ++ map (fun k => (k, f k)) ks.
Proof.
  revert init. induction ks as [|k ks IH]; intros init Hnd; simpl.
  - now rewrite app_nil_r.
  - assert (Hk : obj_has k init = false).
    { destruct (obj_has k init) eqn:E; [|reflexivity].
      apply obj_has_In in E. apply NoDup_app in Hnd as (_ & Hd & _).
      exfalso. apply (Hd k); [now apply list_elem_of_In | left]. }
    unfold obj_set at 2. rewrite Hk, IH.
    + now rewrite <- app_assoc.
    + unfold obj_keys. rewrite map_app, <- app_assoc. exact Hnd.
Qed.

Lemma obj_update_map (f : string -> string) ks k v :
  NoDup ks ->
  obj_update k v (map (fun q => (q, f q)) ks)
  = map (fun q => (q, if String.eqb q k then v else f q)) ks.
Proof.
  induction 1 as [|x ks Hx Hnd IH]; simpl; [reflexivity|].
  rewrite (String.eqb_sym x k). destruct (String.eqb_spec k x) as [->|Hne].
  - f_equal. apply map_ext_in. intros q Hq.
    destruct (String.eqb_spec q x) as [->|]; [|reflexivity].
    exfalso. apply Hx. now apply list_elem_of_In.
  - now rewrite IH.
Qed.

Lemma filter_all_true {A} (p : A -> bool) l :
  (forall x, In x l -> p x = true) -> List.filter p l = l.
Proof.
  induction l as [|x l IH]; simpl; [reflexivity|]. intros Hl.
  rewrite (Hl x) by auto. f_equal. apply IH. auto.
Qed.

Lemma filter_all_false {A} (p : A -> bool) l :
  (forall x, In x l -> p x = false) -> List.filter p l = [].
Proof.
  induction l as [|x l IH]; simpl; [reflexivity|]. intros Hl.
  rewrite (Hl x) by auto. apply IH. auto.
Qed.

Lemma index_le_total a b : index_le a b = false -> index_le b a = true.
Proof. unfold index_le. rewrite N.leb_gt, N.leb_le. lia. Qed.

Lemma insert_index_sorted k l : index_sorted l = true -> index_sorted (insert_index k l) = true.
Proof.
  induction l as [|x l IH]; [reflexivity|]. intros Hl. cbn [insert_index].
  destruct (index_le k x) eqn:Hkx.
  - cbn [index_sorted]. cbn [index_sorted] in Hl. now rewrite Hkx.
  - assert (Hl' : index_sorted l = true).
    { cbn [index_sorted] in Hl. destruct l; [reflexivity|].
      now apply andb_true_iff in Hl as [_ Hl]. }
    specialize (IH Hl'). destruct l as [|y l].
    + cbn. now rewrite (index_le_total _ _ Hkx).
    + cbn [insert_index] in IH |- *. cbn [index_sorted] in Hl.
      apply andb_true_iff in Hl as [Hxy _].
      destruct (index_le k y); cbn [index_sorted] in IH |- *.
      * now rewrite (index_le_total _ _ Hkx), IH.
      * now rewrite Hxy, IH.
Qed.

Lemma sort_index_sorted l : index_sorted (sort_index l) = true.
Proof.
  induction l as [|x l IH]; [reflexivity|]. now apply insert_index_sorted.
Qed.

Lemma sort_index_id l : index_sorted l = true -> sort_index l = l.
Proof.
  induction l as [|x l IH]; [reflexivity|]. intros Hl. cbn [sort_index].
  destruct l as [|y l]; [reflexivity|]. cbn [index_sorted] in Hl.
  apply andb_true_iff in Hl as [Hxy Hl]. rewrite (IH Hl).
  cbn [insert_index]. now rewrite Hxy.
Qed.

(** Enumerating an object built in enumeration order changes nothing, also
    with non-index keys added at its end. *)
Lemma own_keys_stable (f : string -> string) o tl :
  Forall (fun k => is_array_index k = false) tl ->
  own_keys (map (fun q => (q, f q)) (own_keys o ++ tl)) = own_keys o ++ tl.
Proof.
  intros Htl. unfold own_keys at 1. rewrite obj_keys_map.
  set (A := sort_index (List.filter is_array_index (obj_keys o))).
  set (B := List.filter (fun k => negb (is_array_index k)) (obj_keys o)).
  assert (HA : forall x, In x A -> is_array_index x = true).
  { intros x Hx. eapply Permutation_in in Hx; [|apply sort_index_perm].
    now apply filter_In in Hx as [_ Hx]. }
  assert (HB : forall x, In x (B ++ tl) -> is_array_index x = false).
  { intros x [Hx|Hx]%in_app_iff.
    - apply filter_In in Hx as [_ Hx]. now apply negb_true_iff.
    - rewrite Forall_forall in Htl. apply Htl. now apply list_elem_of_In. }
  unfold own_keys. fold A B. rewrite <- app_assoc.
  rewrite (List.filter_app is_array_index A), (List.filter_app _ A).
  rewrite (filter_all_true _ A HA), (filter_all_false _ (B ++ tl) HB), app_nil_r.
  rewrite (filter_all_false _ A), (filter_all_true _ (B ++ tl)).
  - unfold A at 1. now rewrite sort_index_id by apply sort_index_sorted.
  - intros x Hx. now rewrite (HB x Hx).
  - intros x Hx. now rewrite (HA x Hx).
Qed.

Lemma own_keys_no_index o :
  Forall (fun k => is_array_index k = false) (obj_keys o) -> own_keys o = obj_keys o.
Proof.
  intros Hall. unfold own_keys. rewrite Forall_forall in Hall.
  rewrite filter_all_false, filter_all_true; [reflexivity| |].
  - intros x Hx. now rewrite (Hall x) by now apply list_elem_of_In.
  - intros x Hx. apply Hall. now apply list_elem_of_In.
Qed.

(** ** [bugzillaPrefiledReportURL] *)

Lemma enter_bug_wf params : URL_wf (enter_bug params).
Proof.
  constructor; cbn [enter_bug scheme host pathname query fragment searchParams default];
    try reflexivity.
  - now left.
  - apply serialize_query_chars.
  - change (params = urlencoded_parse (urlencoded_serialize params)).
    now rewrite urlencoded_parse_serialize.
Qed.

Lemma enter_bug_href params :
  href (enter_bug params)
  = "https://bugzilla.redhat.com/enter_bug.cgi?" +:+ urlencoded_serialize params.
Proof.
  unfold href, enter_bug. cbn [scheme host pathname query fragment opt_part].
  now rewrite app_nil_r_s.
Qed.

Lemma queryData_component pqd : In "component" (own_keys (queryData_of pqd)).
Proof.
  eapply Permutation_in; [symmetry; apply own_keys_perm|].
  apply obj_has_In. unfold obj_has, queryData_of. now rewrite obj_get_set_eq.
Qed.

Lemma queryData_NoDup pqd : NoDup (own_keys (queryData_of pqd)).
Proof.
  rewrite own_keys_perm.
  apply obj_set_NoDup, spread_into_NoDup. constructor.
Qed.

Lemma bugzilla_url pqd :
  bugzillaPrefiledReportURL pqd
  = Some (href (enter_bug (map (fun q => (q, obj_get_string q (queryData_of pqd)))
                               (own_keys (queryData_of pqd))))).
Proof.
  unfold bugzillaPrefiledReportURL. fold (queryData_of pqd).
  change (URL_new baseURL)
    with (Some {| scheme := "https"; host := "bugzilla.redhat.com"; pathname := "/";
                  query := None; fragment := None; searchParams := [] |}).
  cbv iota beta.
  change (set_pathname "enter_bug.cgi" _)
    with {| scheme := "https"; host := "bugzilla.redhat.com"; pathname := "/enter_bug.cgi";
            query := None; fragment := None; searchParams := [] |}.
  pose proof (queryData_component pqd) as Hin.
  destruct (own_keys (queryData_of pqd)) as [|k ks]; [destruct Hin|].
  now rewrite fold_append_params.
Qed.

(** The object the function enumerates, for a mapping with distinct keys. *)
Lemma queryData_entries pqd :
  NoDup (obj_keys pqd) ->
  let value_of k :=
    if String.eqb k "component" then "anaconda" else obj_get_string k pqd in
  let keys :=
    own_keys pqd ++ (if obj_has "component" pqd then [] else ["component"]) in
  queryData_of pqd = map (fun k => (k, value_of k)) keys.
Proof.
  intros Hnd value_of keys.
  assert (Hown : NoDup (own_keys pqd)).
  { now rewrite own_keys_perm. }
  unfold queryData_of, spread_into.
  rewrite fold_set_fresh by exact Hown. cbn [app].
  unfold obj_set.
  assert (Hhas : obj_has "component" (map (fun k => (k, obj_get_string k pqd)) (own_keys pqd))
                 = obj_has "component" pqd).
  { apply eq_true_iff_eq. rewrite !obj_has_In, obj_keys_map.
    split; apply Permutation_in; [|symmetry]; apply own_keys_perm. }
  rewrite Hhas. subst keys. destruct (obj_has "component" pqd) eqn:Hc.
  - rewrite app_nil_r. now rewrite obj_update_map.
  - rewrite map_app. f_equal. apply map_ext_in. intros k Hk. subst value_of. cbv beta.
    destruct (String.eqb_spec k "component") as [->|]; [|reflexivity].
    eapply Permutation_in in Hk; [|apply own_keys_perm].
    apply obj_has_In in Hk. congruence.
Qed.

(** C4, as stated, fails: a [component] entry of the mapping does not reach
    the URL with its mapped value. *)
Lemma mapped_component_value_lost :
  exists s u,
    bugzillaPrefiledReportURL [("product", "Fedora"); ("component", "firefox")] = Some s
    /\ URL_new s = Some u
    /\ ~ keys_appear_with_mapped_values [("product", "Fedora"); ("component", "firefox")] u.
Proof.
  eexists _, _. split; [vm_compute; reflexivity|]. split; [vm_compute; reflexivity|].
  intros Hall. specialize (Hall "component" "firefox" eq_refl).
  cbn [searchParams] in Hall.
  destruct Hall as [Hx|[Hx|[]]]; discriminate Hx.
Qed.

(** C4 (amended): for a mapping with distinct keys the result is
    [https://bugzilla.redhat.com/enter_bug.cgi?...] and parses back to that
    host and path with one parameter per key, in the enumeration order of the
    mapping (its insertion order when no key is an array index), [component]
    included, last, when the mapping lacks it; each parameter has the mapped
    value, except [component], whose value is always [anaconda]. *)
Theorem report_url_parameters (productQueryData : jsobj) :
  NoDup (obj_keys productQueryData) ->
  let value_of k :=
    if String.eqb k "component" then "anaconda"
    else obj_get_string k productQueryData in
  let keys :=
    own_keys productQueryData
    ++ (if obj_has "component" productQueryData then [] else ["component"]) in
  let params := map (fun k => (k, value_of k)) keys in
  let s := "https://bugzilla.redhat.com/enter_bug.cgi?" +:+ urlencoded_serialize params in
  bugzillaPrefiledReportURL productQueryData = Some s
  /\ URL_new s = Some (enter_bug params)
  /\ (Forall (fun k => is_array_index k = false) (obj_keys productQueryData) ->
      own_keys productQueryData = obj_keys productQueryData).
Proof.
  intros Hnd value_of keys params s.
  assert (Hparams : map (fun q => (q, obj_get_string q (queryData_of productQueryData)))
                        (own_keys (queryData_of productQueryData)) = params).
  { pose proof (queryData_entries _ Hnd) as He. cbv zeta in He.
    fold value_of in He. fold keys in He. rewrite He.
    assert (Hkeys : own_keys (map (fun k => (k, value_of k)) keys) = keys).
    { apply own_keys_stable. destruct (obj_has "component" productQueryData); repeat constructor. }
    rewrite Hkeys. apply map_ext_in. intros k Hk.
    unfold obj_get_string. now rewrite (obj_get_map value_of keys k Hk). }
  split; [|split].
  - rewrite bugzilla_url, Hparams. now rewrite enter_bug_href.
  - subst s. rewrite <- enter_bug_href. apply URL_new_href, enter_bug_wf.
  - apply own_keys_no_index.
Qed.

Lemma report_url_parameters_witness :
  bugzillaPrefiledReportURL [("product", "Fedora"); ("version", "rawhide")]
  = Some "https://bugzilla.redhat.com/enter_bug.cgi?product=Fedora&version=rawhide&component=anaconda".
Proof.
  refine (proj1 (report_url_parameters [("product", "Fedora"); ("version", "rawhide")] _)).
  apply (bool_decide_unpack _). vm_compute. reflexivity.
Defined.

(** C9: whatever the mapping holds, also a [component] entry of its own, the
    URL has exactly one [component] parameter, and its value is [anaconda]. *)
Theorem component_is_anaconda (productQueryData : jsobj) :
  exists s u,
    bugzillaPrefiledReportURL productQueryData = Some s
    /\ URL_new s = Some u
    /\ List.filter (fun p : string * string => String.eqb p.1 "component") (searchParams u)
       = [("component", "anaconda")].
Proof.
  eexists _, _. split; [apply bugzilla_url|].
  split; [apply URL_new_href, enter_bug_wf|].
  cbn [enter_bug searchParams].
  rewrite (filter_key_unique _ _ "component" (queryData_NoDup _) (queryData_component _)).
  unfold obj_get_string, queryData_of. now rewrite obj_get_set_eq.
Qed.

(** ** [addExceptionDataToReportURL] *)

(** C1, as stated, fails for an exception whose context is the empty string:
    no space is put before the name. *)
Lemma short_desc_empty_context :
  exception_context empty_context_error = Some EmptyString
  /\ exists u,
      exceptionReportURL (cockpit := untranslated) "https://bugzilla.redhat.com" empty_context_error
      = Some u
      /\ getAll "short_desc" (searchParams u) = ["WebUI: TypeError: x is undefined"]
      /\ getAll "short_desc" (searchParams u) <> [short_desc_claimed empty_context_error].
Proof.
  split; [reflexivity|]. eexists. split; [vm_compute; reflexivity|].
  split; [reflexivity | discriminate].
Qed.

Section ReportProperties.
Context {cockpit : Cockpit}.

Lemma exceptionReportURL_wf url e u :
  exceptionReportURL url e = Some u -> URL_wf u.
Proof.
  unfold exceptionReportURL. destruct (URL_new url) as [u0|] eqn:Hu; [|discriminate].
  intros [= <-]. apply searchParams_append_wf, searchParams_append_wf.
  eapply URL_new_wf, Hu.
Qed.

(** C1 (amended): the function appends a [short_desc] parameter, followed by
    [comment], to the parameters of the given URL, and the returned string
    parses back to exactly that list.  The value is
    ["WebUI: " + C + " " + N + ": " + M] when the exception carries a
    non-empty context [C], and ["WebUI: " + N + ": " + M] when it carries no
    context or an empty one; name and message go in as they are. *)
Theorem short_desc_appended (url : string) (u : URL) (e : Exception) :
  URL_new url = Some u ->
  exists u',
    addExceptionDataToReportURL url e = Some (href u')
    /\ URL_new (href u') = Some u'
    /\ searchParams u'
       = searchParams u ++ [("short_desc", short_desc e); ("comment", comment e)]
    /\ short_desc e
       = match exception_context e with
         | Some (String c C) =>
             "WebUI: " +:+ String c C +:+ " " +:+ name e +:+ ": " +:+ message e
         | _ => "WebUI: " +:+ name e +:+ ": " +:+ message e
         end.
Proof.
  intros Hu.
  assert (Hrep : exceptionReportURL url e
                 = Some (searchParams_append "comment" (comment e)
                           (searchParams_append "short_desc" (short_desc e) u))).
  { unfold exceptionReportURL. now rewrite Hu. }
  eexists. split; [|split; [|split]].
  - unfold addExceptionDataToReportURL. rewrite Hrep. reflexivity.
  - apply URL_new_href. eapply exceptionReportURL_wf, Hrep.
  - rewrite !searchParams_append_params. now rewrite <- app_assoc.
  - unfold short_desc, context_prefix.
    destruct (exception_context e) as [[|c C]|]; cbn [truthy is_empty negb default];
      try reflexivity.
    cbn [from_option id]. now rewrite app_assoc_s.
Qed.

End ReportProperties.

Lemma short_desc_appended_witness :
  URL_new "https://bugzilla.redhat.com" <> None
  /\ exists u',
      addExceptionDataToReportURL (cockpit := untranslated) "https://bugzilla.redhat.com"
        {| name := "TypeError"; message := "x is undefined"; contextData := None |}
      = Some (href u')
      /\ getAll "short_desc" (searchParams u') = ["WebUI: TypeError: x is undefined"].
Proof.
  split; [discriminate|].
  destruct (short_desc_appended (cockpit := untranslated) "https://bugzilla.redhat.com" _
              {| name := "TypeError"; message := "x is undefined"; contextData := None |}
              eq_refl) as (u' & Hs & _ & Hp & _).
  exists u'. split; [exact Hs|]. rewrite Hp. reflexivity.
Defined.

(** ** The dialog *)

Section DialogProperties.
Context {cockpit : Cockpit} (props : Props).

Lemma settle_log_fetch r w :
  settle log_fetch r w
  = match r with
    | Fulfilled content => setLogContent (Some content) w
    | Rejected _ => w
    end.
Proof. now destruct r. Qed.

Lemma settle_report_write url content r w :
  settle (report_write url content) r w
  = match r with
    | Fulfilled _ =>
        window_open url "_blank" "noopener,noreferer"
          (setPreparingReport false (perform (FileReplace log_path content) r w))
    | Rejected _ => setPreparingReport false w
    end.
Proof. now destruct r. Qed.

Lemma Forall_remove {A} (P : A -> Prop) (l : list A) i :
  Forall P l -> Forall P (take i l ++ drop (S i) l).
Proof.
  intros Hl. apply Forall_app_2; [now apply Forall_take | now apply Forall_drop].
Qed.

Lemma In_remove {A} (x : A) (l : list A) i :
  In x (take i l ++ drop (S i) l) -> In x l.
Proof.
  intros [Hx|Hx]%in_app_iff.
  - apply list_elem_of_In, (subseteq_take i), list_elem_of_In, Hx.
  - apply list_elem_of_In, (subseteq_drop (S i)), list_elem_of_In, Hx.
Qed.

Lemma existsb_remove {A} (f : A -> bool) (l : list A) i p :
  l !! i = Some p ->
  existsb f l = existsb f (take i l ++ drop (S i) l) || f p.
Proof.
  intros Hp. rewrite <- (take_drop_middle l i p Hp) at 1.
  rewrite !existsb_app. cbn [existsb].
  destruct (existsb f (take i l)), (f p), (existsb f (drop (S i) l)); reflexivity.
Qed.

Lemma render_button s view b url :
  CriticalError props s = Some view -> reportButton view = Some (b, url) ->
  (reportURL_of props) = Some url
  /\ isDisabled b = (match logContent s with None => true | Some _ => false end
                     || preparingReport s)
  /\ isLoading b = preparingReport s.
Proof.
  unfold CriticalError. fold (reportURL_of props).
  destruct (reportURL_of props) as [u|]; [|discriminate]. intros [= <-]. cbn.
  destruct (truthy (reportLinkURL props)); [|discriminate].
  intros [= <- <-]. auto.
Qed.

Lemma render_textarea s view :
  CriticalError props s = Some view ->
  textDisabled (logArea view)
  = (match logContent s with None => true | Some _ => false end || preparingReport s).
Proof.
  unfold CriticalError. fold (reportURL_of props).
  destruct (reportURL_of props) as [u|]; [|discriminate]. now intros [= <-].
Qed.

Lemma reportURL_truthy url :
  reportURL_of props = Some url -> truthy (reportLinkURL props) = true.
Proof.
  unfold reportURL_of, addExceptionDataToReportURL, exceptionReportURL.
  destruct (reportLinkURL props) as [[|c s]|]; [discriminate|reflexivity|discriminate].
Qed.

Lemma render_ready url s :
  reportURL_of props = Some url ->
  exists view b,
    CriticalError props s = Some view /\ reportButton view = Some (b, url)
    /\ isDisabled b = (match logContent s with None => true | Some _ => false end
                       || preparingReport s)
    /\ isLoading b = preparingReport s.
Proof.
  intros Hurl. unfold CriticalError. fold (reportURL_of props).
  rewrite Hurl, (reportURL_truthy _ Hurl). eexists _, _. repeat split.
Qed.

Lemma render_url s view :
  CriticalError props s = Some view -> exists url, reportURL_of props = Some url.
Proof.
  unfold CriticalError. fold (reportURL_of props).
  destruct (reportURL_of props) as [url|]; [eauto | discriminate].
Qed.

(** The step function of a dialog that renders, by event. *)
Lemma step_rendered url w e :
  reportURL_of props = Some url ->
  let disabled :=
    match logContent (state w) with None => true | Some _ => false end
    || preparingReport (state w) in
  step props w e
  = match e with
    | Edit text => if disabled then w else setLogContent (Some text) w
    | ClickReport => openBZIssue url w
    | ClickExit => exitGui w
    | Settle i r =>
        match pending w !! i with
        | Some p => settle p r (remove_pending i w)
        | None => w
        end
    end.
Proof.
  intros Hurl disabled. unfold step.
  destruct (render_ready url (state w) Hurl) as (view & b & Hview & Hb & _).
  rewrite Hview, Hb, (render_textarea _ _ Hview). reflexivity.
Qed.

Lemma step_unrendered w e : reportURL_of props = None -> step props w e = w.
Proof.
  intros Hurl. unfold step, CriticalError. fold (reportURL_of props). now rewrite Hurl.
Qed.

Lemma report_enabled_rendered url w :
  reportURL_of props = Some url ->
  report_enabled props w
  = negb (match logContent (state w) with None => true | Some _ => false end
          || preparingReport (state w)).
Proof.
  intros Hurl. unfold report_enabled.
  destruct (render_ready url (state w) Hurl) as (view & b & Hview & Hb & Hd & _).
  now rewrite Hview, Hb, Hd.
Qed.

Lemma mount_rendered url fs :
  reportURL_of props = Some url ->
  mount props fs
  = {| state := {| logContent := None; preparingReport := false |};
       pending := [log_fetch]; files := fs; windows := []; exits := 0 |}.
Proof.
  intros Hurl. unfold mount.
  destruct (render_ready url {| logContent := None; preparingReport := false |} Hurl)
    as (view & _ & Hview & _).
  cbn [state]. now rewrite Hview.
Qed.

Lemma mount_unrendered fs :
  reportURL_of props = None ->
  mount props fs
  = {| state := {| logContent := None; preparingReport := false |};
       pending := []; files := fs; windows := []; exits := 0 |}.
Proof.
  intros Hurl. unfold mount, CriticalError. fold (reportURL_of props). now rewrite Hurl.
Qed.

Lemma invariant_mount fs : invariant props (mount props fs).
Proof.
  destruct (reportURL_of props) as [url|] eqn:Hurl.
  - rewrite (mount_rendered url fs Hurl).
    constructor; cbn; auto; try congruence.
    intros u c [Hx|[]]. discriminate Hx.
  - rewrite (mount_unrendered fs Hurl).
    constructor; cbn; auto; try congruence.
Qed.

Lemma invariant_step w e : invariant props w -> invariant props (step props w e).
Proof.
  intros Hinv. destruct (reportURL_of props) as [url|] eqn:Hurl;
    [|now rewrite step_unrendered].
  rewrite (step_rendered url w e Hurl). cbv zeta.
  assert (Hsome : is_Some (reportURL_of props)) by (rewrite Hurl; eauto).
  pose proof Hinv as [Hpend Hprep Hcont Hwins Hrend].
  destruct e as [text| | |i r].
  - destruct (_ || _); [exact Hinv|].
    constructor; cbn; auto; intros; discriminate.
  - constructor; cbn; auto.
    + apply Forall_app_2; [exact Hpend|]. constructor; [|constructor].
      right. exists url, (logContent (state w)). rewrite Hurl. auto.
    + intros _. unfold write_in_flight. cbn. rewrite existsb_app. cbn.
      apply orb_true_r.
    + intros u c [Hin|[Heq|[]]]%in_app_iff; [now apply (Hcont u c)|].
      injection Heq as Hc _. rewrite Hc. discriminate.
  - constructor; cbn; auto.
  - destruct (pending w !! i) as [p|] eqn:Hp; [|exact Hinv].
    pose proof (Forall_remove _ _ i Hpend) as Hrest.
    pose proof (existsb_remove is_write _ _ _ Hp) as Hex.
    rewrite Forall_forall in Hpend.
    destruct (Hpend p) as [->|(u & content & Hu & ->)];
      [eapply list_elem_of_lookup_2, Hp | |].
    + rewrite settle_log_fetch. cbn [is_write log_fetch then_ cockpit_spawn op] in Hex.
      rewrite orb_false_r in Hex.
      destruct r; constructor; cbn; auto;
        try (unfold write_in_flight in *; cbn; now rewrite <- Hex);
        try (intros u c Hin%In_remove; now apply (Hcont u c));
        intros; discriminate.
    + rewrite settle_report_write.
      destruct r; constructor; cbn; auto; try discriminate;
        try (intros u' c Hin%In_remove; now apply (Hcont u' c)).
      apply Forall_app_2; [exact Hwins|]. constructor; [|constructor]. cbn. auto.
Qed.

Lemma reachable_invariant w : reachable props w -> invariant props w.
Proof.
  intros (fs & evs & ->). unfold run.
  induction evs as [|e evs IH] using rev_ind; [apply invariant_mount|].
  rewrite fold_left_app. now apply invariant_step.
Qed.

(** Settling a pending write, in a reachable world. *)
Lemma step_settle_write w i p r :
  invariant props w -> pending w !! i = Some p -> is_write p = true ->
  exists url content,
    reportURL_of props = Some url /\ p = report_write url content
    /\ step props w (Settle i r)
       = settle (report_write url content) r (remove_pending i w).
Proof.
  intros [Hpend _ _ _ _] Hp Hw. rewrite Forall_forall in Hpend.
  destruct (Hpend p) as [->|(url & content & Hurl & ->)];
    [eapply list_elem_of_lookup_2, Hp | discriminate Hw |].
  exists url, content. repeat split; auto.
  rewrite (step_rendered url w _ Hurl). cbv zeta. now rewrite Hp.
Qed.

(** No event changes a file other than the log file. *)
Lemma step_frame w e path :
  invariant props w -> path <> log_path ->
  files (step props w e) !! path = files w !! path.
Proof.
  intros Hinv Hpath. destruct (reportURL_of props) as [url|] eqn:Hurl;
    [|now rewrite step_unrendered].
  rewrite (step_rendered url w e Hurl). cbv zeta.
  destruct e as [text| | |i r].
  - now destruct (_ || _).
  - reflexivity.
  - reflexivity.
  - destruct (pending w !! i) as [p|] eqn:Hp; [|reflexivity].
    pose proof Hinv as [Hpend _ _ _ _]. rewrite Forall_forall in Hpend.
    destruct (Hpend p) as [->|(u & content & _ & ->)];
      [eapply list_elem_of_lookup_2, Hp | |].
    + rewrite settle_log_fetch. now destruct r.
    + rewrite settle_report_write. destruct r; [|reflexivity].
      destruct content; cbn;
        [now rewrite lookup_insert_ne | now rewrite lookup_delete_ne].
Qed.

End DialogProperties.

Section OrderlyRuns.
Context {cockpit : Cockpit} (props : Props).

Lemma sound_mount fs : lifecycle props (mount props fs) /\ effects props fs (mount props fs).
Proof.
  destruct (reportURL_of props) as [url|] eqn:Hurl.
  - rewrite (mount_rendered props url fs Hurl). split.
    + left. unfold loading. rewrite Hurl. eauto.
    + constructor; cbn; auto; congruence.
  - rewrite (mount_unrendered props fs Hurl). split.
    + right. left. split; reflexivity.
    + constructor; cbn; auto; congruence.
Qed.

Lemma sound_step fs w e :
  lifecycle props w -> effects props fs w ->
  match e with ClickReport => report_enabled props w | _ => true end = true ->
  lifecycle props (step props w e) /\ effects props fs (step props w e).
Proof.
  intros Hlife Heff Hok.
  destruct (reportURL_of props) as [url|] eqn:Hurl;
    [|rewrite step_unrendered by exact Hurl; auto].
  rewrite (report_enabled_rendered props url w Hurl) in Hok.
  rewrite (step_rendered props url w e Hurl). cbv zeta.
  pose proof Heff as [Hrender Hwins Hsaved Hfiles Hfresh].
  destruct w as [[lc pr] pend fls wins ex].
  unfold lifecycle, loading, idle, preparing in Hlife, Hfresh |- *.
  cbn [state pending files windows exits logContent preparingReport] in *.
  assert (Hnotload : forall st ws fl n,
            loading props {| state := st; pending := []; files := fl;
                             windows := ws; exits := n |} -> False).
  { intros st ws fl n (_ & Hp & _). discriminate Hp. }
  assert (Hsome : is_Some (reportURL_of props)) by (rewrite Hurl; eauto).
  destruct Hlife as [(_ & -> & [= -> ->]) | [(-> & ->) | (u & c & Hu & -> & [= -> ->])]].
  - (* the journal is being fetched *)
    destruct (Hfresh (conj Hsome (conj eq_refl eq_refl))) as [-> ->].
    destruct e as [t| | |[|i] r]; cbn in Hok |- *.
    + split; [left; auto | exact Heff].
    + discriminate Hok.
    + split; [left; auto|]. constructor; cbn; auto.
    + destruct r; cbn; (split; [right; left; auto|]);
        constructor; cbn; auto; try congruence;
        intros Hl; exfalso; eapply Hnotload, Hl.
    + split; [left; auto | exact Heff].
  - (* nothing is pending *)
    destruct e as [t| | |i r]; cbn in Hok |- *.
    + destruct lc as [c|]; cbn; (split; [right; left; auto|]); [|exact Heff].
      constructor; cbn; auto; try (intros Hl; exfalso; eapply Hnotload, Hl).
    + destruct lc as [c|]; [|discriminate Hok]. cbn.
      split; [right; right; exists url, c; auto|].
      constructor; cbn; auto; try (intros (_ & Hp & _); discriminate Hp).
    + split; [right; left; auto|].
      constructor; cbn; auto; try (intros Hl; exfalso; eapply Hnotload, Hl).
    + rewrite lookup_nil. split; [right; left; auto | exact Heff].
  - (* the log is being written *)
    assert (u = url) as -> by congruence. clear Hu.
    destruct e as [t| | |[|i] r]; cbn in Hok |- *.
    + split; [right; right; exists url, c; auto | exact Heff].
    + discriminate Hok.
    + split; [right; right; exists url, c; auto|].
      constructor; cbn; auto; try (intros (_ & Hp & _); discriminate Hp).
    + destruct r; cbn; (split; [right; left; auto|]);
        constructor; cbn; auto; try congruence;
        try (intros Hl; exfalso; eapply Hnotload, Hl).
      * apply Forall_app_2; [exact Hwins|]. constructor; [|constructor]. cbn. auto.
      * intros _. rewrite lookup_insert_eq. eauto.
      * right. destruct Hfiles as [->|(c0 & ->)]; [eauto|].
        exists c. apply insert_insert_eq.
    + split; [right; right; exists url, c; auto | exact Heff].
Qed.

Lemma sound_from fs w evs :
  lifecycle props w -> effects props fs w -> orderly props w evs = true ->
  lifecycle props (run props w evs) /\ effects props fs (run props w evs).
Proof.
  unfold run. revert w. induction evs as [|e evs IH]; intros w Hl He Ho; [auto|].
  cbn [orderly] in Ho. apply andb_true_iff in Ho as [Hok Ho].
  cbn [fold_left]. destruct (sound_step fs w e Hl He Hok). now apply IH.
Qed.

Lemma sound_run fs evs :
  orderly props (mount props fs) evs = true ->
  lifecycle props (run props (mount props fs) evs)
  /\ effects props fs (run props (mount props fs) evs).
Proof. destruct (sound_mount fs). now apply sound_from. Qed.

End OrderlyRuns.

Section DialogClaims.
Context {cockpit : Cockpit} (props : Props).

(** C3 (amended): in every state reached by a run in which the report
    control is activated only while it is enabled, the control is disabled
    exactly when the log content is undefined or a write is in flight, and a
    write is in flight exactly when [preparingReport] is set. *)
Theorem report_control_disabled fs evs view b url :
  let w := run props (mount props fs) evs in
  orderly props (mount props fs) evs = true ->
  CriticalError props (state w) = Some view ->
  reportButton view = Some (b, url) ->
  (isDisabled b = true <-> logContent (state w) = None \/ write_in_flight w = true)
  /\ (isDisabled b = false <-> ~ (logContent (state w) = None \/ write_in_flight w = true))
  /\ (write_in_flight w = true <-> preparingReport (state w) = true).
Proof.
  intros w Hord Hview Hb.
  destruct (render_button _ _ _ _ _ Hview Hb) as (_ & Hd & _).
  destruct (sound_run props fs evs Hord) as [Hlife _]. fold w in Hlife.
  assert (Hfl : write_in_flight w = preparingReport (state w)).
  { unfold write_in_flight.
    destruct Hlife as [(_ & -> & ->) | [(-> & ->) | (u & c & _ & -> & ->)]]; reflexivity. }
  assert (Hiff : isDisabled b = true <-> logContent (state w) = None \/ write_in_flight w = true).
  { rewrite Hd, Hfl, orb_true_iff. destruct (logContent (state w)); intuition congruence. }
  split; [exact Hiff|]. split.
  - rewrite <- Hiff. destruct (isDisabled b); intuition congruence.
  - now rewrite Hfl.
Qed.


(** C2 (amended): when a pending write succeeds, [window.open] is called
    once, with the report URL; when it fails, [window.open] is not called. *)
Theorem report_opened_after_write w i p :
  reachable props w ->
  pending w !! i = Some p ->
  is_write p = true ->
  exists url,
    reportURL_of props = Some url
    /\ (forall tag, windows (step props w (Settle i (Fulfilled tag)))
                    = windows w ++ [report_window url])
    /\ (forall problem, windows (step props w (Settle i (Rejected problem))) = windows w).
Proof.
  intros Hinv%reachable_invariant Hp Hw.
  destruct (step_settle_write props w i p (Rejected EmptyString) Hinv Hp Hw)
    as (url & c & Hurl & Hpc & _).
  exists url. split; [exact Hurl|]. split.
  - intros tag.
    destruct (step_settle_write props w i p (Fulfilled tag) Hinv Hp Hw)
      as (url' & c' & _ & Hpc' & ->).
    rewrite Hpc in Hpc'. injection Hpc' as <- <-. reflexivity.
  - intros problem.
    destruct (step_settle_write props w i p (Rejected problem) Hinv Hp Hw)
      as (url' & c' & _ & _ & ->).
    reflexivity.
Qed.


(** C8: an edit of the text area changes at most the log content: the
    pending promises (so no write and no fetch is started), the files, the
    opened windows and [preparingReport] stay as they were.  Whatever the
    event, a promise that is pending afterwards and was not before is a
    write started by the report action. *)
Theorem edit_only_sets_log_content w text :
  let w' := step props w (Edit text) in
  pending w' = pending w
  /\ files w' = files w
  /\ windows w' = windows w
  /\ exits w' = exits w
  /\ preparingReport (state w') = preparingReport (state w)
  /\ (logContent (state w') = Some text \/ w' = w)
  /\ (forall e p, In p (pending (step props w e)) ->
                  In p (pending w) \/ (e = ClickReport /\ is_write p = true)).
Proof.
  cbv zeta. unfold step at 1 2 3 4 5 6 7.
  destruct (CriticalError props (state w)) as [view|] eqn:Hview.
  - repeat split; try (now destruct (textDisabled (logArea view))).
    + destruct (textDisabled (logArea view)); [now right | now left].
    + intros e p. unfold step. rewrite Hview. destruct e as [t| | |i r].
      * destruct (textDisabled (logArea view)); auto.
      * destruct (reportButton view) as [[b url]|]; [|auto]. cbn.
        intros [Hp|[<-|[]]]%in_app_iff; auto.
      * auto.
      * destruct (pending w !! i) as [q|] eqn:Hq; [|auto].
        assert (Hpend : forall hs w0, pending (fold_left
                  (fun w h => if fires h.1 r then run_callback h.2 r w else w) hs w0)
                  = pending w0).
        { induction hs as [|[t cb] hs IH]; intros w0; [reflexivity|].
          cbn [fold_left]. rewrite IH. destruct (fires (t, cb).1 r); [|reflexivity].
          destruct cb; [now destruct r | reflexivity | reflexivity]. }
        unfold settle. rewrite Hpend.
        assert (Hperf : pending (perform (op q) r (remove_pending i w))
                        = take i (pending w) ++ drop (S i) (pending w)).
        { destruct (op q), r; reflexivity. }
        rewrite Hperf. intros Hp. left. eapply In_remove, Hp.
  - repeat split; auto. intros e p. unfold step. rewrite Hview. auto.
Qed.

End DialogClaims.

(** ** A run of the dialog *)

Lemma write_pending_reachable : reachable (cockpit := untranslated) sample_props write_pending_world.
Proof. exists ∅. eexists. reflexivity. Defined.

(** C2, as stated, fails: after a write that fails no window is opened. *)
Lemma failed_write_opens_nothing :
  (exists p, pending write_pending_world !! 0 = Some p /\ is_write p = true)
  /\ windows write_pending_world = []
  /\ windows (step (cockpit := untranslated) sample_props write_pending_world
                (Settle 0 (Rejected "access-denied"))) = [].
Proof.
  split; [eexists; split; reflexivity|]. split; reflexivity.
Qed.

Lemma report_opened_after_write_witness :
  exists url,
    windows (step (cockpit := untranslated) sample_props write_pending_world
               (Settle 0 (Fulfilled "tag"))) = [report_window url]
    /\ windows (step (cockpit := untranslated) sample_props write_pending_world
                  (Settle 0 (Rejected "access-denied"))) = [].
Proof.
  destruct (report_opened_after_write (cockpit := untranslated) sample_props write_pending_world 0 _
              write_pending_reachable eq_refl eq_refl) as (url & _ & Hok & Hfail).
  exists url. split; [apply Hok | apply Hfail].
Defined.

(** C3, as stated, fails: a report click that reaches the control while a
    write is pending is not a no-op, it starts a second write; and once the
    first of the two has settled the control is enabled while the other is
    still in flight. *)
Lemma second_report_click_starts_a_write :
  write_in_flight write_pending_world = true
  /\ length (pending write_pending_world) = 1
  /\ length (pending (step (cockpit := untranslated) sample_props write_pending_world
                        ClickReport)) = 2
  /\ step (cockpit := untranslated) sample_props write_pending_world ClickReport
     <> write_pending_world
  /\ (let w := run (cockpit := untranslated) sample_props write_pending_world
                 [ClickReport; Settle 0 (Rejected "access-denied")] in
      write_in_flight w = true
      /\ preparingReport (state w) = false
      /\ report_enabled (cockpit := untranslated) sample_props w = true).
Proof.
  split; [reflexivity|]. split; [reflexivity|]. split; [reflexivity|]. split.
  - intros Heq. apply (f_equal (fun w => length (pending w))) in Heq. discriminate Heq.
  - repeat split.
Qed.

Lemma report_control_disabled_witness :
  orderly (cockpit := untranslated) sample_props
    (mount (cockpit := untranslated) sample_props ∅)
    [Settle 0 (Fulfilled "journal"); Edit "journal, reviewed"; ClickReport] = true
  /\ exists view b url,
       CriticalError (cockpit := untranslated) sample_props (state write_pending_world)
       = Some view
       /\ reportButton view = Some (b, url)
       /\ isDisabled b = true.
Proof.
  split; [reflexivity|]. eexists _, _, _. split; [reflexivity|]. split; [reflexivity|].
  destruct (report_control_disabled (cockpit := untranslated) sample_props ∅
              [Settle 0 (Fulfilled "journal"); Edit "journal, reviewed"; ClickReport]
              _ _ _ eq_refl eq_refl eq_refl) as (Hd & _ & _).
  apply Hd. right. reflexivity.
Defined.




(** C7: the window is opened with target [_blank] and the features
    [noopener,noreferer]: the opener is withheld, and no [noreferrer] feature
    is among them, so the referrer is not. *)
Theorem report_window_features (url : string) (r : outcome) (w : World) :
  exists o,
    windows (run_callback (WindowOpenCb url) r w) = windows w ++ [o]
    /\ open_url o = url
    /\ open_target o = "_blank"
    /\ feature_names (open_features o) = ["noopener"; "noreferer"]
    /\ suppresses_opener (open_features o) = true
    /\ has_feature "noreferrer" (open_features o) = false
    /\ suppresses_referrer (open_features o) = false.
Proof. eexists. repeat split. Qed.

(** ** [errorHandlerWithContext] *)

(** C10: applied to an exception object, the returned function stores the
    given context data in the object's [contextData] property, whatever was
    there, keeps every other property of the object and every other object,
    and then calls the handler once, on that same object, in the store so
    changed. *)
Theorem errorHandlerWithContext_sets_and_calls
    (contextData : Store.jsval) (handler : Store.function)
    (l : Store.loc) (o : gmap string Store.jsval) (m : Store.machine) :
  Store.objects m !! l = Some o ->
  let o' := <["contextData" := contextData]> o in
  let h' := <[l := o']> (Store.objects m) in
  Store.errorHandlerWithContext contextData handler (Store.VObject l) m
  = ({| Store.objects := (handler (Store.VObject l) h').1;
        Store.calls := Store.calls m ++ [Store.VObject l] |},
     (handler (Store.VObject l) h').2)
  /\ h' !! l = Some o'
  /\ o' !! "contextData" = Some contextData
  /\ (forall k, k <> "contextData" -> o' !! k = o !! k)
  /\ (forall l', l' <> l -> h' !! l' = Store.objects m !! l').
Proof.
  intros Hl o' h'. split; [|split; [|split; [|split]]].
  - unfold Store.errorHandlerWithContext, Store.bind, Store.set_property, Store.invoke.
    rewrite Hl. cbn. fold o' h'. now destruct (handler (Store.VObject l) h').
  - apply lookup_insert_eq.
  - apply lookup_insert_eq.
  - intros k Hk. now apply lookup_insert_ne.
  - intros l' Hl'. now apply lookup_insert_ne.
Qed.

Lemma errorHandlerWithContext_witness :
  let r := Store.errorHandlerWithContext (Store.VObject 2%positive)
             (fun _ h => (h, Store.Normal tt)) (Store.VObject 1%positive) sample_store in
  Store.objects sample_store !! 1%positive = Some sample_error
  /\ Store.calls r.1 = [Store.VObject 1%positive]
  /\ r.2 = Store.Normal tt.
Proof.
  intros r. split; [reflexivity|].
  destruct (errorHandlerWithContext_sets_and_calls (Store.VObject 2%positive)
              (fun _ h => (h, Store.Normal tt)) 1%positive sample_error sample_store eq_refl)
    as (Hrun & _).
  subst r. rewrite Hrun. split; reflexivity.
Defined.

(** ** The life of the dialog *)

Section LifecycleFacts.
Context {cockpit : Cockpit} (props : Props).

Lemma stalled_step fs w e :
  stalled fs w ->
  match e with ClickReport => report_enabled props w | _ => true end = true ->
  stalled fs (step props w e).
Proof.
  intros Hst Hok. destruct (reportURL_of props) as [url|] eqn:Hurl;
    [|now rewrite step_unrendered].
  rewrite (report_enabled_rendered props url w Hurl) in Hok.
  rewrite (step_rendered props url w e Hurl). cbv zeta.
  destruct Hst as (Hs & Hp & Hw & Hf). rewrite Hs in Hok |- *. rewrite Hp. cbn in Hok |- *.
  destruct e as [t| | |i r]; cbn; rewrite ?lookup_nil; try discriminate Hok;
    repeat split; auto.
Qed.

Lemma stalled_from fs w evs :
  stalled fs w -> orderly props w evs = true -> stalled fs (run props w evs).
Proof.
  unfold run. revert w. induction evs as [|e evs IH]; intros w Hst Ho; [exact Hst|].
  cbn [orderly] in Ho. apply andb_true_iff in Ho as [Hok Ho].
  cbn [fold_left]. apply IH; [now apply stalled_step | exact Ho].
Qed.

Lemma settle_keeps_content p r w :
  logContent (state w) <> None -> logContent (state (settle p r w)) <> None.
Proof.
  unfold settle.
  assert (Hperf : state (perform (op p) r w) = state w) by (now destruct (op p), r).
  rewrite <- Hperf. generalize (perform (op p) r w). clear Hperf w.
  induction (handlers p) as [|[t cb] hs IH]; intros w Hw; [exact Hw|].
  cbn [fold_left]. apply IH. destruct (fires (t, cb).1 r); [|exact Hw].
  destruct cb; cbn; [destruct r; [discriminate | exact Hw] | exact Hw | exact Hw].
Qed.

Lemma run_frame fs evs path :
  path <> log_path -> files (run props (mount props fs) evs) !! path = fs !! path.
Proof.
  intros Hpath. unfold run. induction evs as [|e evs IH] using rev_ind.
  - now destruct (reportURL_of props) as [url|] eqn:Hurl;
      [rewrite (mount_rendered props url fs Hurl) | rewrite (mount_unrendered props fs Hurl)].
  - rewrite fold_left_app. cbn [fold_left]. rewrite step_frame; [exact IH | | exact Hpath].
    apply reachable_invariant. now exists fs, evs.
Qed.

(** X1: in a run in which the report control is activated only while it
    is enabled, the dialog is always in one of three situations: fetching
    the journal, with nothing pending, or writing the log; so at most one
    asynchronous operation is outstanding at any time. *)
Theorem one_operation_at_a_time fs evs :
  orderly props (mount props fs) evs = true ->
  let w := run props (mount props fs) evs in
  lifecycle props w /\ length (pending w) <= 1.
Proof.
  intros Hord. cbv zeta. destruct (sound_run props fs evs Hord) as [Hlife _].
  split; [exact Hlife|].
  destruct Hlife as [(_ & -> & _) | [(-> & _) | (u & c & _ & -> & _)]]; cbn; lia.
Qed.

(** X2: in such a run, when the journal fetch succeeds, the log content
    becomes the fetched text, nothing is pending any more, and the report
    control and the text area, which shows that text, are enabled. *)
Theorem journal_arrives fs evs i p content :
  orderly props (mount props fs) evs = true ->
  let w := run props (mount props fs) evs in
  pending w !! i = Some p ->
  is_write p = false ->
  let w' := step props w (Settle i (Fulfilled content)) in
  state w' = {| logContent := Some content; preparingReport := false |}
  /\ pending w' = []
  /\ exists view b url,
       CriticalError props (state w') = Some view
       /\ reportButton view = Some (b, url)
       /\ isDisabled b = false
       /\ logArea view = {| value := Some content; textDisabled := false |}.
Proof.
  intros Hord w Hp Hw w'. destruct (sound_run props fs evs Hord) as [Hlife _].
  fold w in Hlife.
  destruct Hlife as [([url Hurl] & Hpend & Hst) | [(Hpend & _) | (u & c & _ & Hpend & _)]];
    rewrite Hpend in Hp.
  - destruct i as [|i]; [|discriminate Hp]. injection Hp as <-.
    assert (Hw' : w' = setLogContent (Some content) (remove_pending 0 w)).
    { subst w'. rewrite (step_rendered props url w _ Hurl). cbv zeta. now rewrite Hpend. }
    assert (Hst' : state w' = {| logContent := Some content; preparingReport := false |}).
    { rewrite Hw'. cbn. now rewrite Hst. }
    split; [exact Hst'|]. split; [rewrite Hw'; cbn; now rewrite Hpend|].
    destruct (render_ready props url (state w') Hurl) as (view & b & Hview & Hb & Hd & _).
    exists view, b, url. rewrite Hst' in Hd. repeat split; auto.
    unfold CriticalError in Hview. fold (reportURL_of props) in Hview.
    rewrite Hurl, Hst' in Hview. now injection Hview as <-.
  - now rewrite lookup_nil in Hp.
  - destruct i as [|i]; [|discriminate Hp]. injection Hp as <-. discriminate Hw.
Qed.

(** X3: when the journal fetch fails, the dialog stays without log content
    for good: however such a run goes on, nothing is pending, no file is
    changed, no window is opened and the report control is disabled. *)
Theorem journal_never_arrives fs problem evs :
  orderly props (mount props fs) (Settle 0 (Rejected problem) :: evs) = true ->
  let w := run props (mount props fs) (Settle 0 (Rejected problem) :: evs) in
  stalled fs w
  /\ forall view b url,
       CriticalError props (state w) = Some view ->
       reportButton view = Some (b, url) -> isDisabled b = true.
Proof.
  intros Hord. cbv zeta. cbn [orderly andb] in Hord.
  assert (Hst : stalled fs (run props (mount props fs) (Settle 0 (Rejected problem) :: evs))).
  { unfold run. cbn [fold_left]. apply stalled_from; [|exact Hord].
    destruct (reportURL_of props) as [url|] eqn:Hurl.
    - rewrite (step_rendered props url _ _ Hurl), (mount_rendered props url fs Hurl).
      repeat split.
    - rewrite step_unrendered, (mount_unrendered props fs Hurl) by exact Hurl.
      repeat split. }
  split; [exact Hst|]. intros view b url Hview Hb.
  destruct (render_button props _ _ _ _ Hview Hb) as (_ & -> & _).
  destruct Hst as (-> & _). reflexivity.
Qed.

(** X4: once the log content is defined, no event makes it undefined
    again, whatever promises are pending. *)
Theorem log_content_stays_defined w e :
  logContent (state w) <> None -> logContent (state (step props w e)) <> None.
Proof.
  intros Hw. destruct (reportURL_of props) as [url|] eqn:Hurl;
    [|now rewrite step_unrendered].
  rewrite (step_rendered props url w e Hurl). cbv zeta.
  destruct e as [t| | |i r].
  - destruct (_ || _); [exact Hw | discriminate].
  - exact Hw.
  - exact Hw.
  - destruct (pending w !! i); [|exact Hw]. now apply settle_keeps_content.
Qed.

(** X5: every window the dialog opens, over a whole run, is opened on the
    report URL built from the properties, with target [_blank]; the log
    content never enters it. *)
Theorem only_the_report_url_is_opened fs evs :
  Forall (fun o => reportURL_of props = Some (open_url o) /\ open_target o = "_blank")
         (windows (run props (mount props fs) evs)).
Proof.
  assert (Hinv : invariant props (run props (mount props fs) evs))
    by (apply reachable_invariant; now exists fs, evs).
  destruct Hinv as [_ _ _ Hwins _].
  eapply Forall_impl; [exact Hwins|]. intros o [Hurl ->]. split; [exact Hurl | reflexivity].
Qed.

(** X6: over a whole run, no file other than [/tmp/webui.log] differs from
    what it was at mount; and in a run in which the report control is
    activated only while it is enabled, a window has been opened only if the
    log file has been written. *)
Theorem report_opens_after_log_is_saved fs evs :
  let w := run props (mount props fs) evs in
  (forall path, path <> "/tmp/webui.log" -> files w !! path = fs !! path)
  /\ (orderly props (mount props fs) evs = true ->
      windows w <> [] -> is_Some (files w !! "/tmp/webui.log")).
Proof.
  cbv zeta. split; [intros path; apply run_frame|].
  intros Hord. destruct (sound_run props fs evs Hord) as [_ [_ _ Hsaved _ _]].
  exact Hsaved.
Qed.

(** X7: in a run in which the report control is activated only while it
    is enabled, while the log is being written the dialog shows exactly the
    content being written and an edit changes nothing; after a successful
    write, the file holds what the dialog shows. *)
Theorem saved_log_is_the_shown_log fs evs i p tag :
  orderly props (mount props fs) evs = true ->
  let w := run props (mount props fs) evs in
  pending w !! i = Some p ->
  is_write p = true ->
  (exists c, op p = FileReplace "/tmp/webui.log" (Some c)
             /\ logContent (state w) = Some c)
  /\ (forall text, step props w (Edit text) = w)
  /\ (let w' := step props w (Settle i (Fulfilled tag)) in
      files w' !! "/tmp/webui.log" = logContent (state w')).
Proof.
  intros Hord w Hp Hw. destruct (sound_run props fs evs Hord) as [Hlife _].
  fold w in Hlife.
  destruct Hlife as [(_ & Hpend & _) | [(Hpend & _) | (url & c & Hurl & Hpend & Hst)]];
    rewrite Hpend in Hp.
  - destruct i as [|i]; [|discriminate Hp]. injection Hp as <-. discriminate Hw.
  - now rewrite lookup_nil in Hp.
  - destruct i as [|i]; [|discriminate Hp]. injection Hp as <-.
    split; [exists c; rewrite Hst; auto|]. split.
    + intros text. rewrite (step_rendered props url w _ Hurl). cbv zeta. now rewrite Hst.
    + cbv zeta. rewrite (step_rendered props url w _ Hurl). cbv zeta. rewrite Hpend.
      cbn. rewrite Hst. cbn. apply lookup_insert_eq.
Qed.

(** X8: from a dialog with log content and nothing pending, an edit, the
    report action and a successful write leave the edited text in
    [/tmp/webui.log], open the report URL once more, and return the dialog
    to the edited content with the control enabled. *)
Theorem edited_log_is_reported fs evs text tag :
  let w := run props (mount props fs) evs in
  pending w = [] ->
  logContent (state w) <> None ->
  let w' := run props w [Edit text; ClickReport; Settle 0 (Fulfilled tag)] in
  files w' !! "/tmp/webui.log" = Some text
  /\ state w' = {| logContent := Some text; preparingReport := false |}
  /\ pending w' = []
  /\ exists url, reportURL_of props = Some url
                 /\ windows w' = windows w ++ [report_window url].
Proof.
  intros w Hpend Hlog w'.
  assert (Hinv : invariant props w) by (apply reachable_invariant; now exists fs, evs).
  destruct Hinv as [_ Hpr _ _ Hrender].
  destruct (Hrender Hlog) as [url Hurl].
  assert (Hprep : preparingReport (state w) = false).
  { destruct (preparingReport (state w)); [|reflexivity].
    specialize (Hpr eq_refl). unfold write_in_flight in Hpr. rewrite Hpend in Hpr.
    discriminate Hpr. }
  subst w'. clearbody w. clear Hpr Hrender.
  destruct w as [[[c|] pr] pend fls wins ex]; cbn in Hpend, Hlog, Hprep; [|congruence].
  subst pend pr. unfold run. cbn [fold_left].
  rewrite !(step_rendered props url _ _ Hurl). cbn.
  split; [apply lookup_insert_eq|]. split; [reflexivity|]. split; [reflexivity|].
  exists url. split; [exact Hurl | reflexivity].
Qed.

(** X9: a dialog given no report link (undefined or empty) does not
    render: building the report URL throws.  So every rendered dialog has
    the report control, bound to the report URL. *)
Theorem no_render_without_report_link s :
  (truthy (reportLinkURL props) = false -> CriticalError props s = None)
  /\ (forall view, CriticalError props s = Some view ->
        exists b url, reportButton view = Some (b, url)
                      /\ reportURL_of props = Some url).
Proof.
  split.
  - intros Hfalse. destruct (CriticalError props s) as [view|] eqn:Hview; [|reflexivity].
    destruct (render_url props s view Hview) as [url Hurl].
    rewrite (reportURL_truthy props url Hurl) in Hfalse. discriminate Hfalse.
  - intros view Hview. destruct (render_url props s view Hview) as [url Hurl].
    destruct (render_ready props url s Hurl) as (view' & b & Hview' & Hb & _).
    rewrite Hview in Hview'. injection Hview' as <-. eauto.
Qed.

End LifecycleFacts.

(** ** The builders together *)

Lemma own_keys_snoc o k v :
  is_array_index k = false -> own_keys (o ++ [(k, v)]) = own_keys o ++ [k].
Proof.
  intros Hk. unfold own_keys, obj_keys. rewrite map_app, !List.filter_app. cbn.
  rewrite Hk. cbn. now rewrite app_nil_r, app_assoc.
Qed.

Lemma queryData_component_override o v :
  NoDup (obj_keys o) -> queryData_of (obj_set "component" v o) = queryData_of o.
Proof.
  intros Hnd.
  rewrite (queryData_entries _ (obj_set_NoDup "component" v o Hnd)).
  rewrite (queryData_entries _ Hnd). cbv zeta.
  assert (Hhas : obj_has "component" (obj_set "component" v o) = true).
  { unfold obj_has. now rewrite obj_get_set_eq. }
  rewrite Hhas, app_nil_r.
  assert (Hkeys : own_keys (obj_set "component" v o)
                  = own_keys o ++ (if obj_has "component" o then [] else ["component"])).
  { unfold obj_set. destruct (obj_has "component" o).
    - unfold own_keys. now rewrite obj_update_keys, app_nil_r.
    - now apply own_keys_snoc. }
  rewrite Hkeys. apply map_ext_in. intros k _.
  destruct (String.eqb_spec k "component") as [->|Hne]; [reflexivity|].
  unfold obj_get_string. rewrite obj_get_set_ne; [reflexivity | congruence].
Qed.

(** X10: a caller cannot change the component: setting [component] to any
    value in the mapping gives the same URL as the mapping itself. *)
Theorem component_cannot_be_overridden (productQueryData : jsobj) (v : string) :
  NoDup (obj_keys productQueryData) ->
  bugzillaPrefiledReportURL (obj_set "component" v productQueryData)
  = bugzillaPrefiledReportURL productQueryData.
Proof.
  intros Hnd. rewrite !bugzilla_url. now rewrite (queryData_component_override _ v Hnd).
Qed.

Lemma component_cannot_be_overridden_witness :
  bugzillaPrefiledReportURL [("product", "Fedora"); ("component", "firefox")]
  = bugzillaPrefiledReportURL [("product", "Fedora")].
Proof.
  etransitivity;
    [|apply (component_cannot_be_overridden [("product", "Fedora")] "firefox");
      apply (bool_decide_unpack _); vm_compute; reflexivity].
  reflexivity.
Defined.

Section BuildersTogether.
Context {cockpit : Cockpit}.

(** X12: the URL [bugzillaPrefiledReportURL] returns is always accepted by
    [addExceptionDataToReportURL]; the result is still the bug form of
    [bugzilla.redhat.com], holds the parameters of the first URL in their
    order, then [short_desc] and [comment], and still has exactly one
    [component] parameter, [anaconda]. *)
Theorem prefilled_url_takes_exception (productQueryData : jsobj) (e : Exception) :
  exists s u s' u',
    bugzillaPrefiledReportURL productQueryData = Some s
    /\ URL_new s = Some u
    /\ addExceptionDataToReportURL s e = Some s'
    /\ URL_new s' = Some u'
    /\ host u' = "bugzilla.redhat.com" /\ pathname u' = "/enter_bug.cgi"
    /\ fragment u' = None
    /\ searchParams u'
       = searchParams u ++ [("short_desc", short_desc e); ("comment", comment e)]
    /\ getAll "component" (searchParams u') = ["anaconda"].
Proof.
  set (params := map (fun q => (q, obj_get_string q (queryData_of productQueryData)))
                     (own_keys (queryData_of productQueryData))).
  assert (Hnew : URL_new (href (enter_bug params)) = Some (enter_bug params))
    by apply URL_new_href, enter_bug_wf.
  assert (Hrep : exceptionReportURL (href (enter_bug params)) e
                 = Some (searchParams_append "comment" (comment e)
                           (searchParams_append "short_desc" (short_desc e)
                              (enter_bug params)))).
  { unfold exceptionReportURL. now rewrite Hnew. }
  eexists _, _, _, _. split; [apply bugzilla_url|]. fold params.
  split; [exact Hnew|]. split.
  { unfold addExceptionDataToReportURL. rewrite Hrep. reflexivity. }
  split; [apply URL_new_href; eapply exceptionReportURL_wf, Hrep|].
  repeat split.
  - cbn [searchParams searchParams_append enter_bug]. now rewrite <- app_assoc.
  - unfold getAll. cbn [searchParams searchParams_append enter_bug].
    rewrite <- app_assoc, List.filter_app. subst params.
    rewrite (filter_key_unique _ _ "component" (queryData_NoDup _) (queryData_component _)).
    cbn. unfold obj_get_string, queryData_of. now rewrite obj_get_set_eq.
Qed.

End BuildersTogether.

(** ** The error handler and the report *)

(** X13: applied to a value that is not an object (undefined, null, a
    string), the function returned by [errorHandlerWithContext] throws a
    [TypeError] at the assignment: the handler is not called and the store
    is left as it was. *)
Theorem errorHandlerWithContext_needs_an_object
    (contextData : Store.jsval) (handler : Store.function)
    (exception : Store.jsval) (m : Store.machine) :
  (forall l, exception <> Store.VObject l) ->
  Store.errorHandlerWithContext contextData handler exception m
  = (m, Store.Throw "TypeError").
Proof.
  intros Hno. destruct exception as [| |s|l]; try reflexivity. now destruct (Hno l).
Qed.

Lemma errorHandlerWithContext_needs_an_object_witness :
  Store.errorHandlerWithContext (Store.VObject 2%positive)
    (fun _ h => (h, Store.Normal tt)) (Store.VString "out of memory") sample_store
  = (sample_store, Store.Throw "TypeError").
Proof.
  apply errorHandlerWithContext_needs_an_object. intros l. discriminate.
Defined.

(** X14: when the context data is an object whose [context] is the string
    [C], the handler runs on a store where the exception reads as name,
    message and context [C]; the short description built from it carries
    [C] before the name when [C] is not empty. *)
Theorem context_reaches_the_report
    (handler : Store.function) (l lc : Store.loc)
    (o co : gmap string Store.jsval) (m : Store.machine) (N M C : string) :
  Store.objects m !! l = Some o ->
  read_string o "name" = Some N ->
  read_string o "message" = Some M ->
  Store.objects m !! lc = Some co ->
  co !! "context" = Some (Store.VString C) ->
  l <> lc ->
  let e := {| name := N; message := M; contextData := Some {| context := Some C |} |} in
  exists h',
    Store.errorHandlerWithContext (Store.VObject lc) handler (Store.VObject l) m
    = ({| Store.objects := (handler (Store.VObject l) h').1;
          Store.calls := Store.calls m ++ [Store.VObject l] |},
       (handler (Store.VObject l) h').2)
    /\ exception_at h' l = Some e
    /\ short_desc e
       = if is_empty C then "WebUI: " +:+ N +:+ ": " +:+ M
         else "WebUI: " +:+ C +:+ " " +:+ N +:+ ": " +:+ M.
Proof.
  intros Hl Hn Hm Hlc Hc Hne e.
  exists (<[l := <["contextData" := Store.VObject lc]> o]> (Store.objects m)).
  split; [|split].
  - unfold Store.errorHandlerWithContext, Store.bind, Store.set_property, Store.invoke.
    rewrite Hl. cbn. now destruct (handler _ _).
  - unfold exception_at, read_string in *. rewrite lookup_insert_eq.
    rewrite !lookup_insert_ne by discriminate. rewrite lookup_insert_eq.
    destruct (o !! "name") as [[]|]; try discriminate. injection Hn as ->.
    destruct (o !! "message") as [[]|]; try discriminate. injection Hm as ->.
    unfold read_context. rewrite lookup_insert_ne by exact Hne. now rewrite Hlc, Hc.
  - unfold short_desc, context_prefix, e. cbn.
    destruct C; cbn; [reflexivity|]. now rewrite app_assoc_s.
Qed.

Lemma context_reaches_the_report_witness :
  exists h',
    exception_at h' 1%positive
    = Some {| name := "TypeError"; message := "x is undefined";
              contextData := Some {| context := Some "Storage" |} |}
    /\ (Store.errorHandlerWithContext (Store.VObject 2%positive)
          (fun _ h => (h, Store.Normal tt)) (Store.VObject 1%positive) sample_store).1
       = {| Store.objects := h'; Store.calls := [Store.VObject 1%positive] |}.
Proof.
  destruct (context_reaches_the_report (fun _ h => (h, Store.Normal tt))
              1%positive 2%positive sample_error {[ "context" := Store.VString "Storage" ]}
              sample_store "TypeError" "x is undefined" "Storage"
              eq_refl eq_refl eq_refl eq_refl eq_refl)
    as (h' & Hrun & Hread & _); [discriminate|].
  exists h'. split; [exact Hread|]. rewrite Hrun. reflexivity.
Defined.

(** ** Runs of the sample dialog *)

Lemma one_operation_at_a_time_witness :
  length (pending write_pending_world) <= 1.
Proof.
  exact (proj2 (one_operation_at_a_time (cockpit := untranslated) sample_props ∅
                  [Settle 0 (Fulfilled "journal"); Edit "journal, reviewed"; ClickReport]
                  eq_refl)).
Defined.

Lemma journal_arrives_witness :
  state (step (cockpit := untranslated) sample_props
           (mount (cockpit := untranslated) sample_props ∅)
           (Settle 0 (Fulfilled "journal")))
  = {| logContent := Some "journal"; preparingReport := false |}.
Proof.
  exact (proj1 (journal_arrives (cockpit := untranslated) sample_props ∅ [] 0 _ "journal"
                  eq_refl eq_refl eq_refl)).
Defined.

Lemma journal_never_arrives_witness :
  stalled ∅ (run (cockpit := untranslated) sample_props
               (mount (cockpit := untranslated) sample_props ∅)
               [Settle 0 (Rejected "not-found"); Edit "x"; ClickExit]).
Proof.
  exact (proj1 (journal_never_arrives (cockpit := untranslated) sample_props ∅ "not-found"
                  [Edit "x"; ClickExit] eq_refl)).
Defined.

Lemma log_content_stays_defined_witness :
  logContent (state write_pending_world) = Some "journal, reviewed"
  /\ logContent (state (step (cockpit := untranslated) sample_props write_pending_world
                          (Settle 0 (Rejected "access-denied")))) <> None.
Proof.
  split; [reflexivity|].
  apply (log_content_stays_defined (cockpit := untranslated) sample_props write_pending_world).
  discriminate.
Defined.

Lemma report_opens_after_log_is_saved_witness :
  is_Some (files (run (cockpit := untranslated) sample_props write_pending_world
                    [Settle 0 (Fulfilled "tag")]) !! "/tmp/webui.log").
Proof.
  refine (proj2 (report_opens_after_log_is_saved (cockpit := untranslated) sample_props ∅
                   [Settle 0 (Fulfilled "journal"); Edit "journal, reviewed"; ClickReport;
                    Settle 0 (Fulfilled "tag")]) eq_refl _).
  discriminate.
Defined.

Lemma saved_log_is_the_shown_log_witness :
  let w' := step (cockpit := untranslated) sample_props write_pending_world
              (Settle 0 (Fulfilled "tag")) in
  files w' !! "/tmp/webui.log" = logContent (state w').
Proof.
  exact (proj2 (proj2 (saved_log_is_the_shown_log (cockpit := untranslated) sample_props ∅
                         [Settle 0 (Fulfilled "journal"); Edit "journal, reviewed"; ClickReport]
                         0 _ "tag" eq_refl eq_refl eq_refl))).
Defined.

Lemma edited_log_is_reported_witness :
  files (run (cockpit := untranslated) sample_props
           (run (cockpit := untranslated) sample_props
              (mount (cockpit := untranslated) sample_props ∅)
              [Settle 0 (Fulfilled "journal")])
           [Edit "short"; ClickReport; Settle 0 (Fulfilled "tag")]) !! "/tmp/webui.log"
  = Some "short".
Proof.
  refine (proj1 (edited_log_is_reported (cockpit := untranslated) sample_props ∅
                   [Settle 0 (Fulfilled "journal")] "short" "tag" eq_refl _)).
  discriminate.
Defined.
